(** * fare: fairness measure (rND) and stance-based fairness re-rankers

    Shallow embedding of [src/fare/metric/fairness.py] and
    [src/fare/modules/fairness_reranker.py].

    Conventions of the embedding.
    - A pandas [DataFrame] is the list of its rows, in row order.  Where the
      code addresses rows by index label the label is kept next to the row.
    - Python [int] is [Z].  The [rank] column of a frame is an [int64]
      column: the one operation the code performs on the column itself,
      [ranking["rank"] += 1], is exact for ranks below [2^63 - 1] and wraps
      at that rank; it is embedded as the addition of [Z], and every
      theorem that goes through it assumes the ranks below [2^63 - 1].
    - Python [float] is idealised: rounding and overflow are ignored.  The
      metric needs a logarithm and is stated over [R]; the re-rankers only
      add, multiply, divide and compare, and are stated over [Q] extended
      with the IEEE special values the code can meet ([nan], and the
      infinities).  A theorem whose conclusion needs a difference of
      scores not to overflow bounds the scores.
    - A raising call returns [inl] of the exception; the fields a message
      interpolates are kept as data, not rendered to text.
    - Both files call [defaultdict] inside function bodies and neither
      imports or defines the name: evaluating it raises [NameError], and
      the functions are embedded with that exception. *)

From Stdlib Require Import String List ZArith QArith Qminmax Reals Lra Lia Bool.
From Stdlib Require Import Permutation Sorted.
From Stdlib Require Lqa.
Import ListNotations.

Set Implicit Arguments.
Close Scope Q_scope.
Close Scope R_scope.

(** ** Python results and exceptions *)

Module Py.

(** The label type of the code's [Hashable] group names. *)
Definition Hashable := string.

Inductive ProtectedGroupStrategy := MINORITY | MAJORITY.

Inductive TieBreakingStrategy := RANDOM | GROUP_ASCENDING | GROUP_DESCENDING.

(** What each [ValueError] of the code interpolates into its message. *)
Inductive value_error :=
| TieError (strategy : ProtectedGroupStrategy)
           (tie_groups : list Hashable) (count : Z)
    (* "Could not select protected group by {strategy.value} because of a
       tie. Groups {tie_groups} all occur {count} time(s)." *)
| NotSortableError (tie_breaking : TieBreakingStrategy)
                   (tie_groups : list Hashable)
| PreferenceNotApplicableError (tie_breaking tie_groups : list Hashable)
| ProtectedGroupNotFoundError (protected_group : Hashable)
                              (groups : list Hashable)
| MathDomainError.

Inductive type_error :=
| DictGetKeywordArgument   (* dict.get() takes no keyword arguments *)
| SetNotCallable.          (* Series.map given a set *)

Inductive exception :=
| ValueError (e : value_error)
| TypeError (e : type_error)
| NameError (name : string)   (* "name '{name}' is not defined" *)
| IndexError
| ZeroDivisionError.

Definition Result (A : Type) : Type := (exception + A)%type.

Definition ret {A} (a : A) : Result A := inr a.

Definition raise {A} (e : exception) : Result A := inl e.

(** The evaluation of a name that is bound neither in the function nor in
    its module nor among the builtins. *)
Definition unbound_name {A} (name : string) : Result A :=
  raise (NameError name).

Definition bind {A B} (m : Result A) (k : A -> Result B) : Result B :=
  match m with
  | inl e => inl e
  | inr a => k a
  end.

(** A comprehension or loop whose body may raise: the first exception
    leaves the loop. *)
Fixpoint mapM {A B} (f : A -> Result B) (l : list A) : Result (list B) :=
  match l with
  | [] => ret []
  | a :: l' =>
      bind (f a) (fun b => bind (mapM f l') (fun bs => ret (b :: bs)))
  end.

(** [sorted(l, key=...)]: Python's sort is stable, and a stable sort by a
    total preorder has one result, so a stable insertion sort computes it.
    [le x y] says that [x] may stay in front of [y]. *)
Section Sorted.
Variable A : Type.
Variable le : A -> A -> bool.

Fixpoint insert (x : A) (l : list A) : list A :=
  match l with
  | [] => [x]
  | y :: l' => if le x y then x :: l else y :: insert x l'
  end.

Definition sorted (l : list A) : list A := fold_right insert [] l.
End Sorted.

(** A [dict[Hashable, int]]: its items in insertion order, keys distinct. *)
Definition dict := list (Hashable * Z).

Definition keys (d : dict) : list Hashable := map fst d.
Definition values (d : dict) : list Z := map snd d.

Definition dict_get (d : dict) (k : Hashable) : option Z :=
  option_map snd (find (fun item => String.eqb (fst item) k) d).

(** [counts[k]] on a [defaultdict(lambda: 0, ...)]: a missing key is
    inserted with the default before it is returned.  The result is the
    value and the dict after the lookup. *)
Definition defaultdict_getitem (d : dict) (k : Hashable) : Z * dict :=
  match dict_get d k with
  | Some v => (v, d)
  | None => (0%Z, d ++ [(k, 0%Z)])
  end.

(** [frame.groupby(column).size().to_dict()] on the labels of the column:
    one item per distinct label, in ascending order of the label, with its
    row count. *)
Definition groupby_size (labels : list Hashable) : dict :=
  map (fun g => (g, Z.of_nat (count_occ string_dec labels g)))
      (sorted String.leb (nodup string_dec labels)).

End Py.

Import Py.

Declare Scope py_scope.
Notation "x <- m ;; k" := (bind m (fun x => k))
  (at level 61, m at next level, right associativity) : py_scope.
Open Scope py_scope.

(** ** fare/metric/fairness.py *)

Module Fairness.

Local Open Scope Z_scope.

(** A relevance judgment (one row of the qrels frame); [group] is the
    column named by [group_col]. *)
Record Qrel := mkQrel {
  qrel_query_id : string;
  qrel_doc_id : string;
  qrel_group : Hashable
}.

(** One row of a run. *)
Record ScoredDoc := mkScoredDoc {
  query_id : string;
  doc_id : string;
  score : Q;
  rank : Z;
  group : Hashable
}.

(** [defaultdict(default_factory, mapping)] in fairness.py.  The module
    imports from [abc], [dataclasses], [enum], [functools], [math],
    [random], [typing], [ir_measures] and [pandas], and [defaultdict] is
    not among the imported names: the call does not get past the lookup of
    the name. *)
Definition defaultdict (default_factory : unit -> Z) (mapping : dict)
  : Result dict :=
  unbound_name "defaultdict".

(** [FairnessMeasure._group_counts] *)
Definition _group_counts (qrels : list Qrel) : Result dict :=
  let counts := groupby_size (map qrel_group qrels) in
  counts <- defaultdict (fun _ => 0) counts ;;
  ret counts.

(** The [protected_group] parameter: a strategy or an explicit label. *)
Inductive protected_group_param :=
| Strategy (s : ProtectedGroupStrategy)
| Label (g : Hashable).

(** The [tie_breaking] parameter when it is not [None]: a strategy or a
    preference list. *)
Inductive tie_breaking_param :=
| TieStrategy (t : TieBreakingStrategy)
| Preference (groups : list Hashable).

(** [random.choice(l)], with the drawn number as an argument. *)
Definition choice (random : nat) (l : list Hashable) : Hashable :=
  nth (random mod length l)%nat l EmptyString.

Definition by_count_ascending (x y : Hashable * Z) : bool :=
  snd x <=? snd y.

Definition by_count_descending (x y : Hashable * Z) : bool :=
  snd y <=? snd x.

Definition string_geb (x y : string) : bool := String.leb y x.

(** [sorted(groups, key=lambda item: item[1])], with [reverse=True] for
    the majority. *)
Definition sort_groups (strategy : ProtectedGroupStrategy)
           (group_counts : dict) : list (Hashable * Z) :=
  match strategy with
  | MINORITY => sorted by_count_ascending group_counts
  | MAJORITY => sorted by_count_descending group_counts
  end.

(** The groups of a tie: [[group[0] for group in groups if group[1] ==
    count]]. *)
Definition tie_groups_of (groups : list (Hashable * Z)) (count : Z)
  : list Hashable :=
  map fst (filter (fun item => snd item =? count) groups).

Definition _protected_group
           (protected_group : protected_group_param)
           (tie_breaking : option tie_breaking_param)
           (random : nat)
           (group_counts : dict) : Result Hashable :=
  match protected_group with
  | Strategy strategy =>
      let groups := sort_groups strategy group_counts in
      match groups with
      | (g0, c0) :: (g1, c1) :: _ =>
          if c0 =? c1 then
            (* Tie in group selection. *)
            let count := c0 in
            let tie_groups := tie_groups_of groups count in
            match tie_breaking with
            | None => raise (ValueError (TieError strategy tie_groups count))
            | Some (TieStrategy t) =>
                (* hasattr(g, "__lt__") holds of every str. *)
                match t with
                | RANDOM => ret (choice random tie_groups)
                | GROUP_ASCENDING =>
                    ret (hd EmptyString (sorted String.leb tie_groups))
                | GROUP_DESCENDING =>
                    ret (hd EmptyString (sorted string_geb tie_groups))
                end
            | Some (Preference preference) =>
                let tie_breaking_groups :=
                  filter (fun g => existsb (String.eqb g) tie_groups)
                         preference in
                match tie_breaking_groups with
                | [] => raise (ValueError
                          (PreferenceNotApplicableError preference tie_groups))
                | g :: _ => ret g
                end
            end
          else ret g0
      | (g0, _) :: [] => ret g0
      | [] => raise IndexError (* groups[0] of an empty list *)
      end
  | Label g => ret g
  end.

(** [math.log(x, 2)] on a positive argument. *)
Definition log2 (x : R) : R := (ln x / ln 2)%R.

Definition set_rank (d : ScoredDoc) (r : Z) : ScoredDoc :=
  mkScoredDoc (query_id d) (doc_id d) (score d) r (group d).

(** [ranking[ranking["rank"].isin(range(1, i + 1))]] *)
Definition temp_ranking (ranking : list ScoredDoc) (i : Z)
  : list ScoredDoc :=
  filter (fun d => (1 <=? rank d) && (rank d <? i + 1)) ranking.

(** The count that [value_counts] gives the protected group in the prefix,
    0 when the group does not occur there. *)
Definition S_Plus_in (ranking : list ScoredDoc) (protected_group : Hashable)
           (i : Z) : Z :=
  Z.of_nat (length (filter (fun d => String.eqb (group d) protected_group)
                           (temp_ranking ranking i))).

(** The body of the loop over rank positions.  [log] raises on a
    non-positive argument, [1 / log(1, 2)] and [S_plus / 0] divide by
    zero. *)
Definition intermediate_metric (ranking : list ScoredDoc)
           (group_counts : dict) (protected_group : Hashable)
           (N : Z) (i : Z) : Result R :=
  let S_Plus_in_i := S_Plus_in ranking protected_group i in
  let S_plus := fst (defaultdict_getitem group_counts protected_group) in
  if i + 1 <=? 0 then raise (ValueError MathDomainError)
  else if i + 1 =? 1 then raise ZeroDivisionError
  else if N =? 0 then raise ZeroDivisionError
  else ret ((1 / log2 (IZR (i + 1))) *
            Rabs (Rabs (IZR S_Plus_in_i / IZR (i + 1))
                  - Rabs (IZR S_plus / IZR N)))%R.

(** [sum(metrics)] *)
Definition sum (metrics : list R) : R := fold_left Rplus metrics 0%R.

(** [_NormalizedDiscountedDifference.fairness], on the mapping that
    [_group_counts] is written to hand over, whose lookups default to 0.
    [ranking["rank"] += 1] is the addition of [Z]; the [int64] column
    holds the same numbers unless a rank is [2^63 - 1]. *)
Definition fairness (ranking : list ScoredDoc) (group_counts : dict)
           (protected_group : Hashable) : Result R :=
  let N := fold_left Z.add (values group_counts) 0 in
  let ranking :=
    if existsb (fun d => rank d =? 0) ranking
    then (* Some runs use zero-indexed ranks. *)
         map (fun d => set_rank d (rank d + 1)) ranking
    else ranking in
  metrics <- mapM (intermediate_metric ranking group_counts
                                       protected_group N)
                  (map rank ranking) ;;
  ret (sum metrics).

(** [FairnessMeasure._compute_query], with the set of known groups. *)
Definition _compute_query
           (protected_group : protected_group_param)
           (tie_breaking : option tie_breaking_param)
           (random : nat)
           (qrels : list Qrel) (ranking : list ScoredDoc)
           (groups : list Hashable) : Result R :=
  group_counts <- _group_counts qrels ;;
  g <- _protected_group protected_group tie_breaking random group_counts ;;
  if existsb (String.eqb g) groups
  then fairness ranking group_counts g
  else raise (ValueError (ProtectedGroupNotFoundError g groups)).

(** The rND score in the words of the specification: over the rank
    positions [i] present in the ranking, the sum of
    [(1/log2(i+1)) * |S+_in_i/i - S+/N|]. *)
Definition spec_rND (ranking : list ScoredDoc) (group_counts : dict)
           (protected_group : Hashable) : R :=
  let N := fold_left Z.add (values group_counts) 0 in
  let S_plus := fst (defaultdict_getitem group_counts protected_group) in
  sum (map (fun i =>
              (1 / log2 (IZR (i + 1))) *
              Rabs (IZR (S_Plus_in ranking protected_group i) / IZR i
                    - IZR S_plus / IZR N))%R
           (nodup Z.eq_dec (map rank ranking))).

(** [FairnessMeasure._groups]: the [groups] parameter when it is given,
    else the distinct group labels of the judgments of all queries. *)
Definition _groups (groups_param : option (list Hashable))
           (qrels : list Qrel) : list Hashable :=
  match groups_param with
  | Some groups => groups
  | None => nodup string_dec (map qrel_group qrels)
  end.

(** [run.groupby("query_id").head(cutoff)]: a row stays when fewer than
    [cutoff] rows of its query stand before it; [seen] holds the queries
    of the rows passed so far. *)
Fixpoint head_from (seen : list string) (cutoff : nat)
         (run : list ScoredDoc) : list ScoredDoc :=
  match run with
  | [] => []
  | d :: run' =>
      if (count_occ string_dec seen (query_id d) <? cutoff)%nat
      then d :: head_from (query_id d :: seen) cutoff run'
      else head_from (query_id d :: seen) cutoff run'
  end.

Definition groupby_head (cutoff : nat) (run : list ScoredDoc)
  : list ScoredDoc :=
  head_from [] cutoff run.

(** The keys of [run.groupby("query_id")], in the ascending order in which
    the groups are visited. *)
Definition query_ids (run : list ScoredDoc) : list string :=
  sorted String.leb (nodup string_dec (map query_id run)).

(** The rows of one query, in the order of the frame. *)
Definition ranking_of (qid : string) (run : list ScoredDoc)
  : list ScoredDoc :=
  filter (fun d => String.eqb (query_id d) qid) run.

(** [qrels[qrels["query_id"] == qid]] *)
Definition qrels_of (qid : string) (qrels : list Qrel) : list Qrel :=
  filter (fun q => String.eqb (qrel_query_id q) qid) qrels.

(** The output record [Metric(str(qid), self, value)] of one measure. *)
Record Metric := mkMetric {
  metric_query_id : string;
  metric_value : R
}.

(** A generator run to its end: what it yielded, and the exception that
    ended it, if one did. *)
Definition Generator (A : Type) : Type := (list A * option exception)%type.

Fixpoint yield_each {A B} (f : A -> Result B) (l : list A) : Generator B :=
  match l with
  | [] => ([], None)
  | a :: l' =>
      match f a with
      | inl e => ([], Some e)
      | inr b => let '(bs, e) := yield_each f l' in (b :: bs, e)
      end
  end.

(** [FairnessMeasure.compute].  [cutoff] ranges over [nat]; [random]
    gives the number drawn for each query. *)
Definition compute
           (protected_group : protected_group_param)
           (tie_breaking : option tie_breaking_param)
           (random : string -> nat)
           (cutoff : option nat)
           (groups_param : option (list Hashable))
           (qrels : list Qrel) (run : list ScoredDoc) : Generator Metric :=
  let groups := _groups groups_param qrels in
  let run :=
    match cutoff with
    | Some c => groupby_head c run
    | None => run
    end in
  yield_each
    (fun qid =>
       v <- _compute_query protected_group tie_breaking (random qid)
                           (qrels_of qid qrels) (ranking_of qid run) groups ;;
       ret (mkMetric qid v))
    (query_ids run).


End Fairness.

(** ** fare/modules/fairness_reranker.py *)

Module Reranker.

(** *** Floats: exact rationals with the IEEE special values *)

Inductive float :=
| Finite (q : Q)
| Inf (negative : bool)
| NaN.

Definition of_int (z : Z) : float := Finite (inject_Z z).

Definition fzero : float := of_int 0.
Definition fone : float := of_int 1.

Definition isnan (x : float) : bool :=
  match x with NaN => true | _ => false end.

Definition Qltb (a b : Q) : bool := negb (Qle_bool b a).

(** Every comparison with [nan] is false. *)
Definition fltb (x y : float) : bool :=
  match x, y with
  | Finite a, Finite b => Qltb a b
  | Finite _, Inf n => negb n
  | Inf n, Finite _ => n
  | Inf n, Inf m => n && negb m
  | _, _ => false
  end.

Definition fleb (x y : float) : bool :=
  match x, y with
  | Finite a, Finite b => Qle_bool a b
  | Finite _, Inf n => negb n
  | Inf n, Finite _ => n
  | Inf n, Inf m => n || negb m
  | _, _ => false
  end.

Definition fgtb (x y : float) : bool := fltb y x.
Definition fgeb (x y : float) : bool := fleb y x.

Definition fneg (x : float) : float :=
  match x with
  | Finite a => Finite (Qred (- a))
  | Inf n => Inf (negb n)
  | NaN => NaN
  end.

Definition fadd (x y : float) : float :=
  match x, y with
  | Finite a, Finite b => Finite (Qred (a + b))
  | Finite _, Inf n => Inf n
  | Inf n, Finite _ => Inf n
  | Inf n, Inf m => if Bool.eqb n m then Inf n else NaN
  | _, _ => NaN
  end.

Definition fsub (x y : float) : float := fadd x (fneg y).

Definition fmul (x y : float) : float :=
  match x, y with
  | Finite a, Finite b => Finite (Qred (a * b))
  | Finite a, Inf n | Inf n, Finite a =>
      if Qeq_bool a 0 then NaN else Inf (xorb n (Qltb a 0))
  | Inf n, Inf m => Inf (xorb n m)
  | _, _ => NaN
  end.

(** numpy's true division: [0/0] is [nan], [a/0] is an infinity (signed
    zeros are not told apart). *)
Definition fdiv (x y : float) : float :=
  match x, y with
  | Finite a, Finite b =>
      if Qeq_bool b 0
      then if Qeq_bool a 0 then NaN else Inf (Qltb a 0)
      else Finite (Qred (a / b))
  | Finite _, Inf _ => fzero
  | Inf n, Finite b => Inf (xorb n (Qltb b 0))
  | _, _ => NaN
  end.

(** [Series.min()] and [Series.max()]: [nan] entries are skipped, and the
    result is [nan] when nothing is left. *)
Definition series_min (l : list float) : float :=
  match filter (fun x => negb (isnan x)) l with
  | [] => NaN
  | x :: l' => fold_left (fun m y => if fleb m y then m else y) l' x
  end.

Definition series_max (l : list float) : float :=
  match filter (fun x => negb (isnan x)) l with
  | [] => NaN
  | x :: l' => fold_left (fun m y => if fleb y m then m else y) l' x
  end.

(** A float that is a number: neither [nan] nor an infinity. *)
Definition is_finite (x : float) : Prop := exists q : Q, x = Finite q.

(** A float that is a number of absolute value below [b]. *)
Definition is_below (b : Q) (x : float) : Prop :=
  exists q : Q, x = Finite q /\ Qlt (Qopp b) q /\ Qlt q b.

(** A float that is a finite number equal to [s]. *)
Definition is_number (s : Q) (x : float) : Prop :=
  exists q : Q, x = Finite q /\ Qeq q s.

(** *** Rankings *)

(** One row of a ranking; an absent stance value is [NaN], an absent
    stance label is [None]. *)
Record row := mkRow {
  qid : string;
  docno : string;
  score : float;
  rank : Z;
  stance_value : float;
  stance_label : option string
}.

Definition set_score (r : row) (s : float) : row :=
  mkRow (qid r) (docno r) s (rank r) (stance_value r) (stance_label r).

Definition set_stance_label (r : row) (l : option string) : row :=
  mkRow (qid r) (docno r) (score r) (rank r) (stance_value r) l.

(** A frame: its rows in order, each with its index label. *)
Definition DataFrame := list (Z * row).

Definition rows (df : DataFrame) : list row := map snd df.

(** [reset_index(drop=True)]: the labels become the positions. *)
Definition reset_index (l : list row) : DataFrame :=
  combine (map Z.of_nat (seq 0 (length l))) l.

(** [arange(n, 0, -1)] *)
Fixpoint arange_down (n : nat) : list Z :=
  match n with
  | O => []
  | S m => Z.of_nat n :: arange_down m
  end.

(** [ranking["score"] = values], by position. *)
Definition assign_score (df : DataFrame) (values : list float) : DataFrame :=
  map (fun '((index, r), s) => (index, set_score r s)) (combine df values).

(** [ranking["score"] = arange(len(ranking), 0, -1)] *)
Definition reset_score (df : DataFrame) : DataFrame :=
  assign_score df (map of_int (arange_down (length df))).

(** [ranking.drop(index=index)]: every row carrying the label goes. *)
Definition drop (index : Z) (df : DataFrame) : DataFrame :=
  filter (fun item => negb (Z.eqb (fst item) index)) df.

(** *** AlternatingStanceReranker *)

Module Alternating.

(** The variables of the loop. *)
Record state := mkState {
  ranking : DataFrame;
  new_rows : DataFrame;
  last_stance : float
}.

Definition candidates (st : state) : DataFrame :=
  if fgtb (last_stance st) fzero then
    (* Last document was pro A. *)
    filter (fun item => fleb (stance_value (snd item)) fzero) (ranking st)
  else if fltb (last_stance st) fzero then
    (* Last document was pro B. *)
    filter (fun item => fgeb (stance_value (snd item)) fzero) (ranking st)
  else
    (* Last document was neutral. *)
    ranking st.

(** One iteration of [while len(ranking) > 0]; [None] when the loop
    condition fails. *)
Definition step (st : state) : option state :=
  match ranking st with
  | [] => None
  | _ :: _ =>
      match candidates st with
      | [] =>
          (* No candidate for the stance was found. *)
          Some (mkState (ranking st) (new_rows st) NaN)
      | (index, document) :: _ =>
          Some (mkState (drop index (ranking st))
                        (new_rows st ++ [(index, document)])
                        (stance_value document))
      end
  end.

(** The loop, cut after [fuel] iterations. *)
Fixpoint loop (fuel : nat) (st : state) : option state :=
  match fuel with
  | O => None
  | S fuel' =>
      match step st with
      | None => Some st
      | Some st' => loop fuel' st'
      end
  end.

(** Two iterations take at least one row off the ranking, so the fuel
    given here is never used up ([_transform_query_returns] below). *)
Definition _transform_query (ranking : DataFrame) : option DataFrame :=
  match loop (2 * length ranking + 1) (mkState ranking [] NaN) with
  | Some st => Some (reset_score (new_rows st))
  | None => None
  end.

(** The ranking left in the pool at the moment the row at position [j]
    of the output is chosen. *)
Fixpoint pool_at (fuel : nat) (st : state) (j : nat)
  : option DataFrame :=
  match fuel with
  | O => None
  | S fuel' =>
      match step st with
      | None => None
      | Some st' =>
          if (length (new_rows st) =? j)%nat
             && (length (new_rows st') =? S j)%nat
          then Some (ranking st)
          else pool_at fuel' st' j
      end
  end.

Definition pool (ranking : DataFrame) (j : nat) : option DataFrame :=
  pool_at (2 * length ranking + 1) (mkState ranking [] NaN) j.

(** Both rows are pro A, or both are pro B. *)
Definition same_sign (x y : row) : bool :=
  (fgtb (stance_value x) fzero && fgtb (stance_value y) fzero)
  || (fltb (stance_value x) fzero && fltb (stance_value y) fzero).

(** [c] is of the sign opposite to that of [last], or neutral. *)
Definition opposite_or_neutral (last c : row) : bool :=
  (fgtb (stance_value last) fzero && fleb (stance_value c) fzero)
  || (fltb (stance_value last) fzero && fgeb (stance_value c) fzero).

(** The rows still to place, counted twice, plus one when the next
    iteration may find no candidate. *)
Definition measure (st : state) : nat :=
  2 * length (ranking st)
  + (if fgtb (last_stance st) fzero || fltb (last_stance st) fzero
     then 1 else 0).

(** What the loop knows about the last row it has placed. *)
Definition inv (st : state) : Prop :=
  forall (pre : DataFrame) (x : Z * row),
    new_rows st = pre ++ [x] ->
    last_stance st = stance_value (snd x)
    \/ (last_stance st = NaN
        /\ forall c, In c (ranking st) ->
                     opposite_or_neutral (snd x) (snd c) = false).

End Alternating.

(** *** BalancedStanceReranker *)

Module Balanced.

Local Open Scope Z_scope.

(** [l.iloc[:stop]]: a negative [stop] counts from the end. *)
Definition iloc_to {A} (stop : Z) (l : list A) : list A :=
  if stop <? 0
  then firstn (length l - Z.to_nat (- stop)) l
  else firstn (Z.to_nat stop) l.

(** [l.iloc[start:]] for [0 <= start]. *)
Definition iloc_from {A} (start : Z) (l : list A) : list A :=
  skipn (Z.to_nat start) l.

(** Label slices of a frame whose labels are its positions; both ends
    are included, and an end outside the labels selects nothing
    there. *)
Definition loc_to (stop : Z) (l : list row) : list row :=
  firstn (Z.to_nat (stop + 1)) l.

Definition loc_from (start : Z) (l : list row) : list row :=
  skipn (Z.to_nat start) l.

Definition loc (start stop : Z) (l : list row) : list row :=
  firstn (Z.to_nat (stop + 1 - Z.max start 0)) (skipn (Z.to_nat start) l).

Definition pro_a (r : row) : bool := fgtb (stance_value r) fzero.
Definition pro_b (r : row) : bool := fltb (stance_value r) fzero.

Definition count_pro_a (k : Z) (ranking : list row) : Z :=
  let head := iloc_to k ranking in
  Z.of_nat (length (filter pro_a head)).

Definition count_pro_b (k : Z) (ranking : list row) : Z :=
  let head := iloc_to k ranking in
  Z.of_nat (length (filter pro_b head)).

(** [concat([ranking.loc[:i - 1], ranking.loc[i + 1:j],
             ranking.loc[i:i], ranking.loc[j + 1:]])]:
    row [i] is moved behind row [j]. *)
Definition move_behind (ranking : list row) (i j : Z) : list row :=
  loc_to (i - 1) ranking ++ loc (i + 1) j ranking
    ++ loc i i ranking ++ loc_from (j + 1) ranking.

(** What one pass over the loop does. *)
Inductive iteration :=
| Balanced                          (* the loop condition is false *)
| Return                            (* [return ranking] inside the loop *)
| Continue (ranking : list row).    (* the ranking is rebound *)

Definition step (k : Z) (ranking : list row) : iteration :=
  if Z.abs (count_pro_a k ranking - count_pro_b k ranking) >? 1 then
    (* The top-k ranking is currently imbalanced. *)
    let head := iloc_to (k - 1) (reset_index ranking) in
    let tail := iloc_from k (reset_index ranking) in
    if count_pro_a k ranking - count_pro_b k ranking >? 0 then
      (* There are currently more documents pro A. *)
      let candidates_a := filter (fun item => pro_a (snd item)) head in
      let candidates_b := filter (fun item => pro_b (snd item)) tail in
      match rev (map fst candidates_a), map fst candidates_b with
      | index_a :: _, index_b :: _ =>
          Continue (move_behind ranking index_a index_b)
      | _, _ => Return
      end
    else
      (* There are currently more documents pro B. *)
      let candidates_b := filter (fun item => pro_b (snd item)) head in
      let candidates_a := filter (fun item => pro_a (snd item)) tail in
      match rev (map fst candidates_b), map fst candidates_a with
      | index_b :: _, index_a :: _ =>
          Continue (move_behind ranking index_b index_a)
      | _, _ => Return
      end
  else Balanced.

(** How the loop is left: by [return ranking] inside it, or through its
    condition. *)
Inductive exit :=
| Returned (ranking : list row)
| Fell_through (ranking : list row).

(** The loop, cut after [fuel] iterations. *)
Fixpoint loop (fuel : nat) (k : Z) (ranking : list row) : option exit :=
  match fuel with
  | O => None
  | S fuel' =>
      match step k ranking with
      | Balanced => Some (Fell_through ranking)
      | Return => Some (Returned ranking)
      | Continue ranking' => loop fuel' k ranking'
      end
  end.

Definition fuel_for (ranking : list row) : nat :=
  ((length ranking + 1) * (length ranking + 1) + 1)%nat.

(** [self.k] ranges over [nat]: [assert 0 <= self.k] holds.  The fuel is
    never used up ([balanced_transform_query_returns] below). *)
Definition _transform_query (self_k : nat) (ranking : DataFrame)
  : option DataFrame :=
  let k := Z.min (Z.of_nat self_k) (Z.of_nat (length ranking)) in
  let ranking := rows ranking in  (* ranking.copy().reset_index(drop=True) *)
  match loop (fuel_for ranking) k ranking with
  | None => None
  | Some (Returned ranking) => Some (reset_index ranking)
  | Some (Fell_through ranking) =>
      (* Reset score. *)
      Some (reset_score (reset_index ranking))
  end.

(** The imbalance that the loop condition tests. *)
Definition imbalance (k : Z) (ranking : list row) : Z :=
  Z.abs (count_pro_a k ranking - count_pro_b k ranking).

(** The position of the first row satisfying [f], or the length of the
    list. *)
Fixpoint first_pos (f : row -> bool) (l : list row) : nat :=
  match l with
  | [] => O
  | z :: l' => if f z then O else S (first_pos f l')
  end.

(** The polarity in deficit in the window. *)
Definition under_of (k : Z) (ranking : list row) : row -> bool :=
  if count_pro_a k ranking - count_pro_b k ranking >? 0 then pro_b else pro_a.

(** What decreases with every move of the loop: the imbalance of the
    window, and below it the distance from the window to the first row of
    the polarity in deficit. *)
Definition variant (k : Z) (ranking : list row) : nat :=
  (Z.to_nat (imbalance k ranking) * (length ranking + 1)
   + first_pos (under_of k ranking) (iloc_from k ranking))%nat.

(** By how much a move lowers the imbalance, read off the row [entering]
    that stands right behind the window: 2 when it is of the polarity in
    deficit, 0 when it is of the polarity in excess, 1 otherwise. *)
Definition lowering (k : Z) (ranking : list row) (entering : row) : Z :=
  if count_pro_a k ranking - count_pro_b k ranking >? 0
  then if pro_b entering then 2 else if pro_a entering then 0 else 1
  else if pro_a entering then 2 else if pro_b entering then 0 else 1.

End Balanced.

(** *** Frames held by reference *)

(** [_normalize_scores] is called for its effect on the frame it is
    given, so frames live in a store and are passed by reference. *)
Definition store := list DataFrame.
Definition ref := nat.

Definition deref (h : store) (r : ref) : DataFrame := nth r h [].

Fixpoint write (h : store) (r : ref) (df : DataFrame) : store :=
  match h, r with
  | [], _ => []
  | _ :: h', O => df :: h'
  | x :: h', S r' => x :: write h' r' df
  end.

(** [frame.copy()]: a fresh frame with the same rows. *)
Definition copy (h : store) (r : ref) : store * ref :=
  (h ++ [deref h r], length h).

Definition scores (df : DataFrame) : list float :=
  map (fun item => score (snd item)) df.

(** [_normalize_scores(ranking, inplace)]: the store after the call and
    the returned reference. *)
Definition _normalize_scores (h : store) (ranking : ref) (inplace : bool)
  : store * ref :=
  let '(h, ranking) := copy h ranking in
  let min_score := series_min (scores (deref h ranking)) in
  let max_score := series_max (scores (deref h ranking)) in
  let '(h, ranking) := if negb inplace then copy h ranking else (h, ranking) in
  let h := write h ranking
             (assign_score (deref h ranking)
                (map (fun s => fdiv (fsub s min_score)
                                    (fsub max_score min_score))
                     (scores (deref h ranking)))) in
  (h, ranking).

(** [ranking["stance_label"].fillna("NO", inplace=True)] *)
Definition fillna_NO (df : DataFrame) : DataFrame :=
  map (fun item =>
         (fst item,
          set_stance_label (snd item)
            (Some (match stance_label (snd item) with
                   | Some l => l
                   | None => "NO"%string
                   end))))
      df.

Definition labels (df : DataFrame) : list string :=
  map (fun item => match stance_label (snd item) with
                   | Some l => l
                   | None => EmptyString
                   end) df.

(** [sort_values("score", ascending=False)]: [nan] scores go last.  pandas
    leaves the order of equal scores open; they keep their order here. *)
Definition sort_values_score_descending (df : DataFrame) : DataFrame :=
  sorted (fun x y => fleb (score (snd y)) (score (snd x)))
         (filter (fun item => negb (isnan (score (snd item)))) df)
  ++ filter (fun item => isnan (score (snd item))) df.

(** *** InverseStanceGainReranker *)

Module InverseStanceGain.

(** [sum(rel / 1 for i, rel in enumerate(ranking_stance == stance))] *)
Definition _discounted_gain (ranking_stance : list string)
           (stance : string) : float :=
  fold_left fadd
    (map (fun l => fdiv (if String.eqb l stance then fone else fzero) fone)
         ranking_stance)
    fzero.

(** [stance_boost[label]] on the [defaultdict(lambda: 0.0, ...)] *)
Definition stance_boost_getitem (stance_boost : list (string * float))
           (label : string) : float :=
  match find (fun item => String.eqb (fst item) label) stance_boost with
  | Some (_, b) => b
  | None => fzero
  end.

(** [defaultdict(default_factory, mapping)] in fairness_reranker.py.  The
    module imports from [dataclasses], [enum], [functools], [math],
    [typing], [numpy], [pandas], [pyterrier] and [tqdm], and [defaultdict]
    is not among the imported names: the call does not get past the lookup
    of the name. *)
Definition defaultdict (default_factory : unit -> float)
           (mapping : list (string * float))
  : Result (list (string * float)) :=
  unbound_name "defaultdict".

(** [InverseStanceGainReranker._rerank_query]: the store after the call,
    and the returned reference or the exception that ended the call. *)
Definition _rerank_query (stances : list string) (alpha : float)
           (h : store) (ranking : ref) : store * Result ref :=
  let '(h, ranking) := copy h ranking in
  let h := write h ranking (fillna_NO (deref h ranking)) in
  (* Boost by inverse discounted gain per stance. *)
  let ranking_stances := labels (deref h ranking) in
  let stance_boost :=
    map (fun stance =>
           (stance,
            fdiv fone (_discounted_gain (labels (deref h ranking)) stance)))
        (filter (fun stance => existsb (String.eqb stance) ranking_stances)
                stances) in
  match defaultdict (fun _ => fzero) stance_boost with
  | inl e => (h, inl e)
  | inr stance_boost =>
      let boost := map (stance_boost_getitem stance_boost)
                       (labels (deref h ranking)) in
      (* Normalize scores. *)
      let '(h, _) := _normalize_scores h ranking true in
      let h := write h ranking
                 (assign_score (deref h ranking)
                    (map (fun '(s, b) =>
                            fadd (fmul (fsub fone alpha) s) (fmul alpha b))
                         (combine (scores (deref h ranking)) boost))) in
      let h := write h ranking
                 (sort_values_score_descending (deref h ranking)) in
      (h, inr ranking)
  end.

(** The frame that [_normalize_scores] returns for a frame. *)
Definition normalized (ranking : DataFrame) (inplace : bool) : DataFrame :=
  let '(h, r) := _normalize_scores [ranking] 0%nat inplace in
  deref h r.

End InverseStanceGain.

(** *** BoostMinorityStanceReranker *)

Module BoostMinority.

(** [stance_counts.get(stance, default=0)]: [dict.get] takes its
    arguments by position only, so the call raises before any lookup. *)
Definition dict_get_default_keyword (d : dict) (key : string) (default : Z)
  : Result Z :=
  raise (TypeError DictGetKeywordArgument).

(** [sorted(l, key=key)]: the keys are computed first, one call per
    element and in order. *)
Definition sorted_key (key : string -> Result Z) (l : list string)
  : Result (list string) :=
  ks <- mapM key l ;;
  ret (map snd (sorted (fun x y => (fst x <=? fst y)%Z) (combine ks l))).

(** [Series.map(arg)] for a [set] (given by its elements): the set is
    called on each value. *)
Definition series_map_set (arg : list float) (values : list float)
  : Result (list float) :=
  match values with
  | [] => ret []
  | _ :: _ => raise (TypeError SetNotCallable)
  end.

Definition _rerank_query (self_boost : float) (ranking : DataFrame)
  : Result DataFrame :=
  let ranking := fillna_NO ranking in
  let stance_counts := groupby_size (labels ranking) in
  sorted_list <- sorted_key
                   (fun stance =>
                      dict_get_default_keyword stance_counts stance 0)
                   ["FIRST"; "SECOND"; "NEUTRAL"; "NO"]%string ;;
  sorted_stances <- match sorted_list with
                    | [] => raise IndexError
                    | stance :: _ => ret stance
                    end ;;
  (* Boost minority stance label. *)
  let boost :=
    map (fun i => if (i =? 0)%nat then self_boost else fone)
        (seq 0 (String.length sorted_stances)) in
  factors <- series_map_set boost (scores ranking) ;;
  ret (assign_score ranking
         (map (fun '(s, f) => fmul s f)
              (combine (scores ranking) factors))).

End BoostMinority.

End Reranker.

(** ** Inputs of the examples *)

Module Examples.
Import Fairness.
Local Open Scope string_scope.
Local Open Scope Z_scope.

(** The judgments and the ranking of the worked example of the
    specification: d1, d2 of group A and d3 of group B, ranked 1, 2, 3. *)
Definition rnd_qrels : list Qrel :=
  [mkQrel "Q1" "d1" "A"; mkQrel "Q1" "d2" "A"; mkQrel "Q1" "d3" "B"].

Definition rnd_ranking : list ScoredDoc :=
  [mkScoredDoc "Q1" "d1" (3 # 1) 1 "A"; mkScoredDoc "Q1" "d2" (2 # 1) 2 "A";
   mkScoredDoc "Q1" "d3" (1 # 1) 3 "B"].


(** The group counts of the worked example, [{A: 2, B: 1}]: the judged
    documents per group. *)
Definition rnd_counts : dict := [("A", 2); ("B", 1)].

(** One judged document of one group, ranked first: every prefix of the
    ranking holds the group in its global proportion. *)
Definition single_ranking : list ScoredDoc :=
  [mkScoredDoc "Q1" "d1" (1 # 1) 1 "A"].

Definition single_counts : dict := [("A", 1)].

(** Group counts with a tie at the minimum, and with a single minimum. *)
Definition tied_counts : dict := [("A", 2); ("B", 1); ("C", 1)].

Definition minority_counts : dict := [("A", 2); ("B", 1)].

(** Four rows with the stance values +1, +1, +1, -1, and the ranking after
    the first row is moved behind the last. *)
Definition stance_row (name : string) (stance : Z) : Reranker.row :=
  Reranker.mkRow "Q1" name (Reranker.of_int 0) 0
                 (Reranker.of_int stance) None.

Definition three_pro_a : list Reranker.row :=
  [stance_row "a" 1; stance_row "b" 1; stance_row "c" 1;
   stance_row "d" (-1)].

Definition three_pro_a_moved : list Reranker.row :=
  [stance_row "b" 1; stance_row "c" 1; stance_row "d" (-1);
   stance_row "a" 1].

(** Three rows pro A and none pro B. *)
Definition only_pro_a : list Reranker.row :=
  [stance_row "a" 1; stance_row "b" 1; stance_row "c" 1].

(** Two rows with the same score 1/2: the first labelled FIRST, the second
    without a stance label. *)
Definition label_row (name : string) (s : Q) (label : option string)
  : Reranker.row :=
  Reranker.mkRow "Q1" name (Reranker.Finite s) 0 Reranker.NaN label.

Definition equal_scores : Reranker.DataFrame :=
  [(0, label_row "d1" (1 # 2) (Some "FIRST"));
   (1, label_row "d2" (1 # 2) None)].

(** The labels FIRST, FIRST, SECOND and an absent label, with the scores
    4, 3, 2, 1. *)
Definition boost_ranking : Reranker.DataFrame :=
  [(0, label_row "d1" (4 # 1) (Some "FIRST"));
   (1, label_row "d2" (3 # 1) (Some "FIRST"));
   (2, label_row "d3" (2 # 1) (Some "SECOND"));
   (3, label_row "d4" (1 # 1) None)].

End Examples.

(** * Properties *)

Unset Implicit Arguments.

(** ** Sorting *)

Section SortedFacts.
Context {A : Type} (le : A -> A -> bool).

Lemma insert_perm (x : A) (l : list A) :
  Permutation (insert le x l) (x :: l).
Proof.
  induction l as [|y l IH]; simpl.
  - reflexivity.
  - destruct (le x y).
    + reflexivity.
    + rewrite IH. apply perm_swap.
Qed.

Lemma sorted_perm (l : list A) : Permutation (sorted le l) l.
Proof.
  induction l as [|x l IH]; simpl.
  - reflexivity.
  - rewrite insert_perm. now constructor.
Qed.

Lemma sorted_In (l : list A) (x : A) : In x (sorted le l) <-> In x l.
Proof.
  split; apply Permutation_in; [|symmetry]; apply sorted_perm.
Qed.
End SortedFacts.

(** ** Group counts *)

Section GroupCounts.
Import Fairness.
Local Open Scope Z_scope.

(** C9. [_group_counts] returns no mapping.  For every judgment set of
    one query, the empty one included, the call raises [NameError]: the
    counts per group are computed, and the name [defaultdict] that is to
    give them the default 0 is not bound in fairness.py.  So it is for the
    empty judgment set and for the judgments of the worked example. *)
Theorem C9_group_counts_raises_name_error :
  (forall qrels : list Qrel,
      _group_counts qrels = inl (NameError "defaultdict"))
  /\ _group_counts [] = inl (NameError "defaultdict")
  /\ _group_counts Examples.rnd_qrels = inl (NameError "defaultdict").
Proof.
  repeat split.
Qed.

End GroupCounts.

(** ** Selection of the protected group *)

Section ProtectedGroup.
Import Fairness.
Local Open Scope Z_scope.

Lemma sort_groups_perm (strategy : ProtectedGroupStrategy) (counts : dict) :
  Permutation (sort_groups strategy counts) counts.
Proof.
  destruct strategy; apply sorted_perm.
Qed.

Lemma tie_groups_of_In (groups : list (Hashable * Z)) (c : Z) (g : Hashable) :
  In g (tie_groups_of groups c) <-> In (g, c) groups.
Proof.
  unfold tie_groups_of. rewrite in_map_iff. split.
  - intros ([g' c'] & Heq & Hin). apply filter_In in Hin as [Hin Hc].
    simpl in *. apply Z.eqb_eq in Hc. subst. assumption.
  - intros Hin. exists (g, c). split; [reflexivity|].
    apply filter_In. split; [assumption|]. simpl. apply Z.eqb_refl.
Qed.

(** A group that is strictly smaller than all others is sorted to the
    front, whatever its position in the mapping. *)
Lemma sorted_unique_minimum (l1 l2 : list (Hashable * Z))
      (g : Hashable) (c : Z) :
  (forall item, In item (l1 ++ l2) -> c < snd item) ->
  sorted by_count_ascending (l1 ++ (g, c) :: l2)
  = (g, c) :: sorted by_count_ascending (l1 ++ l2).
Proof.
  induction l1 as [|x l1 IH]; simpl; intros Hmin.
  - destruct (sorted by_count_ascending l2) as [|y s] eqn:Hs; simpl.
    + reflexivity.
    + unfold by_count_ascending at 1. simpl.
      assert (Hy : c < snd y).
      { apply Hmin. apply (sorted_In by_count_ascending). rewrite Hs.
        now left. }
      destruct (Z.leb_spec c (snd y)); [reflexivity | lia].
  - rewrite IH by (intros item Hin; apply Hmin; now right).
    simpl. unfold by_count_ascending at 1. simpl.
    assert (Hx : c < snd x) by (apply Hmin; now left).
    destruct (Z.leb_spec (snd x) c); [lia | reflexivity].
Qed.

Lemma NoDup_keys_split (counts : dict) (g : Hashable) (c : Z) :
  NoDup (keys counts) -> In (g, c) counts ->
  exists l1 l2, counts = l1 ++ (g, c) :: l2
                /\ forall item, In item (l1 ++ l2) -> fst item <> g.
Proof.
  intros Hnd Hin. apply in_split in Hin as (l1 & l2 & ->).
  exists l1, l2. split; [reflexivity|].
  unfold keys in Hnd. rewrite map_app in Hnd. simpl in Hnd.
  apply NoDup_remove_2 in Hnd. intros item Hitem Heq. apply Hnd.
  rewrite <- map_app, <- Heq. now apply in_map.
Qed.

(** C5. Under MINORITY or MAJORITY, when the two groups sorted to the front
    share their count and no tie-breaking is configured, the selection
    raises the error of the tie, which carries the strategy, the shared
    count and the tied groups: the two groups at the front are among them,
    and they are exactly the groups of the mapping with that count.
    Conversely, when one group of the mapping has a count strictly below
    that of every other group, MINORITY returns this group whatever the
    tie-breaking parameter and the random draw are. *)
Theorem C5_tie_raises_and_unique_minimum_selected :
  (forall (strategy : ProtectedGroupStrategy) (counts : dict) (random : nat)
          (g0 g1 : Hashable) (c : Z) (rest : list (Hashable * Z)),
      sort_groups strategy counts = (g0, c) :: (g1, c) :: rest ->
      exists tie_groups,
        _protected_group (Strategy strategy) None random counts
        = inl (ValueError (TieError strategy tie_groups c))
        /\ In g0 tie_groups /\ In g1 tie_groups
        /\ forall g, In g tie_groups <-> In (g, c) counts)
  /\
  (forall (counts : dict) (tie_breaking : option tie_breaking_param)
          (random : nat) (g : Hashable) (c : Z),
      NoDup (keys counts) ->
      In (g, c) counts ->
      (forall g' c', In (g', c') counts -> g' <> g -> c < c') ->
      _protected_group (Strategy MINORITY) tie_breaking random counts
      = inr g).
Proof.
  split.
  - intros strategy counts random g0 g1 c rest Hsorted.
    exists (tie_groups_of (sort_groups strategy counts) c).
    unfold _protected_group. rewrite Hsorted, Z.eqb_refl. simpl.
    split; [reflexivity|].
    rewrite <- Hsorted.
    assert (Hperm := sort_groups_perm strategy counts).
    repeat split.
    + apply tie_groups_of_In. rewrite Hsorted. now left.
    + apply tie_groups_of_In. rewrite Hsorted. right. now left.
    + intros Hin. apply tie_groups_of_In in Hin.
      eapply Permutation_in; eassumption.
    + intros Hin. apply tie_groups_of_In.
      eapply Permutation_in; [symmetry|]; eassumption.
  - intros counts tie_breaking random g c Hnd Hin Hmin.
    destruct (NoDup_keys_split counts g c Hnd Hin) as (l1 & l2 & -> & Hne).
    assert (Hlt : forall item, In item (l1 ++ l2) -> c < snd item).
    { intros [g' c'] Hitem. simpl. apply (Hmin g').
      - apply in_app_iff in Hitem. apply in_app_iff.
        destruct Hitem; [now left | right; now right].
      - apply (Hne _ Hitem). }
    unfold _protected_group, sort_groups.
    rewrite (sorted_unique_minimum l1 l2 g c Hlt).
    destruct (sorted by_count_ascending (l1 ++ l2)) as [|[g1 c1] s] eqn:Hs.
    + reflexivity.
    + assert (Hc1 : c < c1).
      { apply (Hlt (g1, c1)). apply (sorted_In by_count_ascending).
        rewrite Hs. now left. }
      destruct (Z.eqb_spec c c1); [lia | reflexivity].
Qed.

Lemma C5_tie_and_unique_minimum_witness :
  (exists tie_groups,
      _protected_group (Strategy MINORITY) None 0 Examples.tied_counts
      = inl (ValueError (TieError MINORITY tie_groups 1))
      /\ In "B"%string tie_groups /\ In "C"%string tie_groups
      /\ forall g, In g tie_groups <-> In (g, 1) Examples.tied_counts)
  /\ _protected_group (Strategy MINORITY) (Some (TieStrategy RANDOM)) 7
                      Examples.minority_counts
     = inr "B"%string.
Proof.
  split.
  - apply (proj1 C5_tie_raises_and_unique_minimum_selected
                 MINORITY Examples.tied_counts 0%nat
                 "B"%string "C"%string 1 [("A"%string, 2)]).
    reflexivity.
  - apply (proj2 C5_tie_raises_and_unique_minimum_selected
                 Examples.minority_counts (Some (TieStrategy RANDOM)) 7%nat
                 "B"%string 1).
    + repeat constructor; simpl; intuition discriminate.
    + right. now left.
    + intros g' c' [Heq | [Heq | []]] Hne; inversion Heq; subst;
        [lia | congruence].
Defined.

End ProtectedGroup.

(** ** The rND score *)

Section RND.
Import Fairness Examples.
Local Open Scope string_scope.
Local Open Scope R_scope.

Lemma ln_2_pos : 0 < ln 2.
Proof.
  rewrite <- ln_1. apply ln_increasing; lra.
Qed.

Lemma log2_2 : log2 2 = 1.
Proof.
  unfold log2. field. pose proof ln_2_pos. lra.
Qed.

Lemma log2_4 : log2 4 = 2.
Proof.
  unfold log2. replace 4 with (2 * 2) by lra.
  rewrite ln_mult by lra. field. pose proof ln_2_pos. lra.
Qed.

Lemma log2_pos (x : R) : 1 < x -> 0 < log2 x.
Proof.
  intros Hx. unfold log2. apply Rdiv_lt_0_compat; [|apply ln_2_pos].
  rewrite <- ln_1. apply ln_increasing; lra.
Qed.

(** [25/16 < log2 3 < 100/63], from [2^25 < 3^16] and [3^63 < 2^100]. *)
Lemma log2_3_bounds : 25 / 16 < log2 3 < 100 / 63.
Proof.
  unfold log2. pose proof ln_2_pos as H2.
  assert (Ha : 63 * ln 3 < 100 * ln 2).
  { replace 63 with (INR 63) by (simpl; lra).
    replace 100 with (INR 100) by (simpl; lra).
    rewrite <- !ln_pow by lra.
    apply ln_increasing; [apply pow_lt; lra | lra]. }
  assert (Hb : 25 * ln 2 < 16 * ln 3).
  { replace 25 with (INR 25) by (simpl; lra).
    replace 16 with (INR 16) by (simpl; lra).
    rewrite <- !ln_pow by lra.
    apply ln_increasing; [apply pow_lt; lra | lra]. }
  split; apply (Rmult_lt_reg_r (ln 2)); try assumption;
    replace (ln 3 / ln 2 * ln 2) with (ln 3) by (field; lra); lra.
Qed.

Lemma sum_nonneg_from (metrics : list R) (acc : R) :
  0 <= acc -> Forall (fun m => 0 <= m) metrics ->
  0 <= fold_left Rplus metrics acc.
Proof.
  revert acc. induction metrics as [|m l IH]; simpl; intros acc Hacc Hall.
  - assumption.
  - inversion Hall; subst. apply IH; [lra | assumption].
Qed.

Lemma intermediate_metric_nonneg ranking counts g N i m :
  intermediate_metric ranking counts g N i = inr m -> 0 <= m.
Proof.
  unfold intermediate_metric.
  destruct (Z.leb_spec (i + 1) 0); [discriminate|].
  destruct (Z.eqb_spec (i + 1) 1); [discriminate|].
  destruct (Z.eqb_spec N 0); [discriminate|].
  intros Heq. injection Heq as <-.
  apply Rmult_le_pos; [|apply Rabs_pos].
  apply Rlt_le, Rdiv_lt_0_compat; [lra|].
  apply log2_pos. apply IZR_lt. lia.
Qed.

Lemma mapM_Forall {A B} (P : B -> Prop) (f : A -> Result B) l bs :
  (forall a b, f a = inr b -> P b) ->
  mapM f l = inr bs -> Forall P bs.
Proof.
  intros Hf. revert bs. induction l as [|a l IH]; simpl; intros bs Heq.
  - injection Heq as <-. constructor.
  - destruct (f a) as [e|b] eqn:Hfa; simpl in Heq; [discriminate|].
    destruct (mapM f l) as [e|bs'] eqn:Hl; simpl in Heq; [discriminate|].
    injection Heq as <-. constructor; eauto.
Qed.

(** The score is never negative. *)
Lemma fairness_nonneg ranking counts g v :
  fairness ranking counts g = inr v -> 0 <= v.
Proof.
  unfold fairness. intros Heq.
  match type of Heq with
  | bind (mapM ?f ?l) _ = _ => destruct (mapM f l) as [e|metrics] eqn:Hm
  end; simpl in Heq; [discriminate|].
  injection Heq as <-. apply sum_nonneg_from; [lra|].
  eapply mapM_Forall; [|exact Hm].
  intros a b. apply intermediate_metric_nonneg.
Qed.

(** C1. On the worked example of the specification (judgments d1, d2 of
    group A and d3 of group B, ranking d1, d2, d3 with ranks 1, 2, 3,
    protected group B) the code returns [1/3 + (1/3)/log2 3 + 1/24], which
    lies between 0.585 and 0.589: the third term is [(1/2) * |1/4 - 1/3|],
    because the count of the prefix is divided by [i + 1].  The formula of
    the specification, which divides by [i], gives [1/3 + (1/3)/log2 3],
    between 0.543 and 0.547, and the two differ by exactly [1/24]. *)
Theorem C1_rND_example_divides_prefix_count_by_i_plus_1 :
  exists v : R,
    fairness rnd_ranking rnd_counts "B" = inr v
    /\ v = 1 / 3 + 1 / log2 3 * (1 / 3) + 1 / 24
    /\ spec_rND rnd_ranking rnd_counts "B"
       = 1 / 3 + 1 / log2 3 * (1 / 3)
    /\ v = spec_rND rnd_ranking rnd_counts "B" + 1 / 24
    /\ 0.543 < spec_rND rnd_ranking rnd_counts "B" < 0.547
    /\ 0.585 < v < 0.589.
Proof.
  assert (Hcode :
    fairness rnd_ranking rnd_counts "B"
    = inr (1 / 3 + 1 / log2 3 * (1 / 3) + 1 / 24)).
  { unfold fairness. simpl. unfold intermediate_metric, S_Plus_in. simpl.
    unfold ret. f_equal. unfold sum. simpl.
    rewrite log2_2, log2_4.
    replace (0 / 2) with 0 by lra. replace (0 / 3) with 0 by lra.
    rewrite Rabs_R0.
    rewrite (Rabs_pos_eq (1 / 3)) by lra.
    rewrite (Rabs_pos_eq (1 / 4)) by lra.
    replace (0 - 1 / 3) with (- (1 / 3)) by lra.
    rewrite Rabs_Ropp, (Rabs_pos_eq (1 / 3)) by lra.
    replace (1 / 4 - 1 / 3) with (- (1 / 12)) by lra.
    rewrite Rabs_Ropp, (Rabs_pos_eq (1 / 12)) by lra.
    lra. }
  assert (Hspec :
    spec_rND rnd_ranking rnd_counts "B"
    = 1 / 3 + 1 / log2 3 * (1 / 3)).
  { unfold spec_rND, S_Plus_in. simpl. unfold sum. simpl.
    rewrite log2_2, log2_4.
    replace (0 / 1 - 1 / 3) with (- (1 / 3)) by lra.
    replace (0 / 2 - 1 / 3) with (- (1 / 3)) by lra.
    replace (1 / 3 - 1 / 3) with 0 by lra.
    rewrite Rabs_R0, Rabs_Ropp, (Rabs_pos_eq (1 / 3)) by lra.
    lra. }
  assert (Hx : 0.63 < 1 / log2 3 < 0.64).
  { destruct log2_3_bounds as [Hlo Hhi].
    assert (Hpos : 0 < log2 3) by lra.
    split.
    - apply (Rmult_lt_reg_r (log2 3)); [assumption|].
      replace (1 / log2 3 * log2 3) with 1 by (field; lra). lra.
    - apply (Rmult_lt_reg_r (log2 3)); [assumption|].
      replace (1 / log2 3 * log2 3) with 1 by (field; lra). lra. }
  exists (1 / 3 + 1 / log2 3 * (1 / 3) + 1 / 24).
  rewrite Hspec. repeat split; try assumption; lra.
Qed.

(** C3. The group counts hold one document, of group A, and the ranking
    holds that document at rank 1, so at the only prefix the share of the
    protected group A ([1/1]) equals its global share ([1/1]); the formula
    of the specification is 0 there, but [fairness] returns [1/2], since
    it divides the count of the prefix by [i + 1 = 2]. *)
Theorem C3_rND_positive_on_proportional_ranking :
  fairness single_ranking single_counts "A" = inr (1 / 2)
  /\ IZR (S_Plus_in single_ranking "A" 1) / 1
     = IZR (fst (defaultdict_getitem single_counts "A"))
       / IZR (fold_left Z.add (values single_counts) 0%Z)
  /\ spec_rND single_ranking single_counts "A" = 0.
Proof.
  assert (Hcode :
    fairness single_ranking single_counts "A" = inr (1 / 2)).
  { unfold fairness. simpl. unfold intermediate_metric, S_Plus_in. simpl.
    unfold ret. f_equal. unfold sum. simpl. rewrite log2_2.
    rewrite (Rabs_pos_eq (1 / 2)) by lra.
    rewrite (Rabs_pos_eq (1 / 1)) by lra.
    replace (1 / 2 - 1 / 1) with (- (1 / 2)) by lra.
    rewrite Rabs_Ropp, (Rabs_pos_eq (1 / 2)) by lra. lra. }
  repeat split.
  - exact Hcode.
  - unfold spec_rND, S_Plus_in. simpl. unfold sum. simpl.
    replace (1 / 1 - 1 / 1) with 0 by lra. rewrite Rabs_R0. lra.
Qed.

Lemma set_rank_back (d : ScoredDoc) :
  set_rank (set_rank d (rank d - 1)) (rank (set_rank d (rank d - 1)) + 1) = d.
Proof.
  destruct d as [q i s r g]. unfold set_rank. simpl. f_equal. lia.
Qed.

Lemma no_zero_rank (ranking : list ScoredDoc) :
  (forall d, In d ranking -> (1 <= rank d)%Z) ->
  existsb (fun d => (rank d =? 0)%Z) ranking = false.
Proof.
  intros Hpos. apply not_true_is_false. intros Hex.
  apply existsb_exists in Hex as (d & Hin & Hz).
  apply Z.eqb_eq in Hz. specialize (Hpos d Hin). lia.
Qed.

(** C4. For a ranking whose ranks are 1-based (every rank is at least 1 and,
    unless the ranking is empty, some document has rank 1), the ranking with
    every rank decreased by 1 and everything else unchanged gets the same
    result of [fairness]: the same score, or the same exception. *)
Theorem C4_rND_zero_based_ranks_same_score :
  forall (ranking : list ScoredDoc) (group_counts : dict)
         (protected_group : Hashable),
    (forall d, In d ranking -> (1 <= rank d)%Z) ->
    (ranking = [] \/ exists d, In d ranking /\ rank d = 1%Z) ->
    fairness (map (fun d => set_rank d (rank d - 1)) ranking)
             group_counts protected_group
    = fairness ranking group_counts protected_group.
Proof.
  intros ranking group_counts protected_group Hpos Hone.
  destruct Hone as [-> | (d1 & Hin1 & Hr1)]; [reflexivity|].
  unfold fairness.
  rewrite (no_zero_rank ranking Hpos).
  assert (Hzero :
    existsb (fun d => (rank d =? 0)%Z)
            (map (fun d => set_rank d (rank d - 1)) ranking) = true).
  { apply existsb_exists. exists (set_rank d1 (rank d1 - 1)). split.
    - apply in_map_iff. exists d1. auto.
    - simpl. apply Z.eqb_eq. lia. }
  rewrite Hzero.
  rewrite map_map.
  rewrite (map_ext _ (fun d => d) set_rank_back), map_id.
  reflexivity.
Qed.

Lemma C4_rND_zero_based_ranks_witness :
  fairness (map (fun d => set_rank d (rank d - 1)) rnd_ranking)
           rnd_counts "B"
  = fairness rnd_ranking rnd_counts "B".
Proof.
  apply C4_rND_zero_based_ranks_same_score.
  - intros d [<- | [<- | [<- | []]]]; simpl; lia.
  - right. exists (mkScoredDoc "Q1" "d1" (3 # 1) 1 "A").
    split; [now left | reflexivity].
Defined.

End RND.

(** ** Frames *)

Section Frames.
Import Reranker.

Lemma reset_index_from_nth (l : list row) (s j : nat) (r : row) :
  nth_error l j = Some r ->
  nth_error (combine (map Z.of_nat (seq s (length l))) l) j
  = Some (Z.of_nat (s + j), r).
Proof.
  revert s j. induction l as [|x l IH]; intros s j Hj.
  - destruct j; discriminate.
  - destruct j as [|j]; simpl in *.
    + injection Hj as ->. now rewrite Nat.add_0_r.
    + rewrite (IH (S s) j Hj). do 3 f_equal. lia.
Qed.

Lemma reset_index_nth (l : list row) (j : nat) (r : row) :
  nth_error l j = Some r ->
  nth_error (reset_index l) j = Some (Z.of_nat j, r).
Proof.
  intros Hj. unfold reset_index. now rewrite (reset_index_from_nth l 0 j r Hj).
Qed.

Lemma reset_index_length (l : list row) : length (reset_index l) = length l.
Proof.
  unfold reset_index. rewrite length_combine, length_map, length_seq. lia.
Qed.

Lemma rows_reset_index (l : list row) : rows (reset_index l) = l.
Proof.
  unfold rows, reset_index.
  assert (H : forall s, map snd (combine (map Z.of_nat (seq s (length l))) l)
                        = l).
  { induction l as [|x l IH]; intros s; simpl; [reflexivity|].
    now rewrite IH. }
  apply H.
Qed.

Lemma assign_score_nth (df : DataFrame) (values : list float) (j : nat)
      (index : Z) (r : row) (s : float) :
  nth_error df j = Some (index, r) ->
  nth_error values j = Some s ->
  nth_error (assign_score df values) j = Some (index, set_score r s).
Proof.
  unfold assign_score. revert values j.
  induction df as [|x df IH]; intros values j Hdf Hv.
  - destruct j; discriminate.
  - destruct values as [|v values]; [destruct j; discriminate|].
    destruct j as [|j]; simpl in *.
    + injection Hdf as ->. injection Hv as ->. reflexivity.
    + now apply IH.
Qed.

Lemma assign_score_length (df : DataFrame) (values : list float) :
  length values = length df -> length (assign_score df values) = length df.
Proof.
  intros Hlen. unfold assign_score. rewrite length_map, length_combine. lia.
Qed.

Lemma arange_down_length (n : nat) : length (arange_down n) = n.
Proof.
  induction n; simpl; congruence.
Qed.

Lemma arange_down_nth (n j : nat) :
  (j < n)%nat ->
  nth_error (arange_down n) j = Some (Z.of_nat n - Z.of_nat j)%Z.
Proof.
  revert j. induction n as [|n IH]; intros j Hj; [lia|].
  destruct j as [|j].
  - change (arange_down (S n)) with (Z.of_nat (S n) :: arange_down n).
    simpl nth_error. f_equal; lia.
  - change (arange_down (S n)) with (Z.of_nat (S n) :: arange_down n).
    simpl nth_error. rewrite IH by lia. f_equal; lia.
Qed.

(** After [reset_score] the row at position [j] of [n] rows has the score
    [n - j], and is otherwise the row it was. *)
Lemma reset_score_nth (df : DataFrame) (j : nat) (index : Z) (r : row) :
  nth_error df j = Some (index, r) ->
  nth_error (reset_score df) j
  = Some (index,
          set_score r (of_int (Z.of_nat (length df) - Z.of_nat j))).
Proof.
  intros Hj. unfold reset_score. apply assign_score_nth; [assumption|].
  rewrite nth_error_map, arange_down_nth; [reflexivity|].
  apply nth_error_Some. congruence.
Qed.

Lemma reset_score_length (df : DataFrame) :
  length (reset_score df) = length df.
Proof.
  unfold reset_score. apply assign_score_length.
  now rewrite length_map, arange_down_length.
Qed.

End Frames.

(** ** BalancedStanceReranker *)

Section BalancedFacts.
Import Reranker Reranker.Balanced.
Local Open Scope Z_scope.

Lemma step_k_0 (ranking : list row) : step 0 ranking = Balanced.
Proof.
  reflexivity.
Qed.

(** C8. With [k = 0] the re-ranker returns, for every ranking, a frame with
    as many rows as the input, in which the row at position [j] is the row
    at position [j] of the input with its score replaced by [n - j] ([n]
    the number of rows): query, document, rank, stance value and stance
    label are those of the input row, the order is the input order, and the
    scores [n, n-1, .., 1] descend strictly. *)
Theorem C8_balanced_k_0_only_restamps_scores :
  forall ranking : DataFrame,
  exists out : DataFrame,
    _transform_query 0 ranking = Some out
    /\ length out = length ranking
    /\ (forall (j : nat) (index : Z) (r : row),
          nth_error ranking j = Some (index, r) ->
          exists r' : row,
            nth_error out j = Some (Z.of_nat j, r')
            /\ qid r' = qid r /\ docno r' = docno r /\ rank r' = rank r
            /\ stance_value r' = stance_value r
            /\ stance_label r' = stance_label r
            /\ score r' = of_int (Z.of_nat (length ranking) - Z.of_nat j))
    /\ (forall (j : nat) (x y : Z * row),
          nth_error out j = Some x -> nth_error out (S j) = Some y ->
          fltb (score (snd y)) (score (snd x)) = true).
Proof.
  intros ranking.
  assert (Hrun : _transform_query 0 ranking
                 = Some (reset_score (reset_index (rows ranking)))).
  { unfold _transform_query.
    replace (Z.min (Z.of_nat 0) (Z.of_nat (length ranking))) with 0 by lia.
    unfold fuel_for. rewrite Nat.add_1_r. reflexivity. }
  assert (Hnth : forall (j : nat) (index : Z) (r : row),
             nth_error ranking j = Some (index, r) ->
             nth_error (reset_score (reset_index (rows ranking))) j
             = Some (Z.of_nat j,
                     set_score r (of_int (Z.of_nat (length ranking)
                                          - Z.of_nat j)))).
  { intros j index r Hj.
    assert (Hrow : nth_error (rows ranking) j = Some r).
    { unfold rows. rewrite nth_error_map, Hj. reflexivity. }
    rewrite (reset_score_nth _ _ _ _ (reset_index_nth _ _ _ Hrow)).
    rewrite reset_index_length. unfold rows. now rewrite length_map. }
  assert (Hlen : length (reset_score (reset_index (rows ranking)))
                 = length ranking).
  { rewrite reset_score_length, reset_index_length. unfold rows.
    apply length_map. }
  exists (reset_score (reset_index (rows ranking))).
  split; [exact Hrun|]. split; [exact Hlen|]. split.
  - intros j index r Hj. eexists. split; [apply (Hnth j index r Hj)|].
    simpl. repeat split; reflexivity.
  - intros j x y Hx Hy.
    assert (Hj : (S j < length ranking)%nat).
    { rewrite <- Hlen. apply nth_error_Some. congruence. }
    destruct (nth_error ranking j) as [[ix rx]|] eqn:Hrx;
      [|apply nth_error_None in Hrx; lia].
    destruct (nth_error ranking (S j)) as [[iy ry]|] eqn:Hry;
      [|apply nth_error_None in Hry; lia].
    rewrite (Hnth _ _ _ Hrx) in Hx. rewrite (Hnth _ _ _ Hry) in Hy.
    injection Hx as <-. injection Hy as <-. simpl.
    unfold Qltb. apply negb_true_iff.
    destruct (Qle_bool _ _) eqn:Hle; [|reflexivity].
    apply Qle_bool_iff in Hle. rewrite <- Zle_Qle in Hle. lia.
Qed.

Lemma reset_index_nth_inv (l : list row) (j : nat) (i : Z) (x : row) :
  nth_error (reset_index l) j = Some (i, x) ->
  i = Z.of_nat j /\ nth_error l j = Some x.
Proof.
  intros Hj.
  destruct (nth_error l j) as [x'|] eqn:Hl.
  - rewrite (reset_index_nth _ _ _ Hl) in Hj. injection Hj as <- <-. auto.
  - apply nth_error_None in Hl.
    assert (nth_error (reset_index l) j = None).
    { apply nth_error_None. rewrite reset_index_length. assumption. }
    congruence.
Qed.

Lemma head_candidate (f : row -> bool) (m : nat) (l : list row) (i : Z) :
  In i (map fst (filter (fun item => f (snd item))
                        (firstn m (reset_index l)))) ->
  exists (j : nat) (x : row),
    i = Z.of_nat j /\ (j < m)%nat /\ nth_error l j = Some x /\ f x = true.
Proof.
  intros Hin. apply in_map_iff in Hin as ([i' x] & <- & Hin).
  apply filter_In in Hin as [Hin Hf]. simpl in *.
  apply In_nth_error in Hin as [j Hj].
  rewrite nth_error_firstn in Hj.
  destruct (Nat.ltb_spec j m); [|discriminate].
  apply reset_index_nth_inv in Hj as [-> Hx].
  exists j, x. auto.
Qed.

Lemma tail_candidate (f : row -> bool) (m : nat) (l : list row) (i : Z) :
  In i (map fst (filter (fun item => f (snd item))
                        (skipn m (reset_index l)))) ->
  exists (j : nat) (x : row),
    i = Z.of_nat j /\ (m <= j)%nat /\ nth_error l j = Some x /\ f x = true.
Proof.
  intros Hin. apply in_map_iff in Hin as ([i' x] & <- & Hin).
  apply filter_In in Hin as [Hin Hf]. simpl in *.
  apply In_nth_error in Hin as [j Hj].
  rewrite nth_error_skipn in Hj.
  apply reset_index_nth_inv in Hj as [-> Hx].
  exists (m + j)%nat, x. repeat split; auto. lia.
Qed.

Lemma two_rows_split (l : list row) (i j : nat) (x y : row) :
  (i < j)%nat -> nth_error l i = Some x -> nth_error l j = Some y ->
  exists l1 l2 l3,
    l = l1 ++ x :: l2 ++ y :: l3
    /\ length l1 = i /\ (length l1 + 1 + length l2 = j)%nat.
Proof.
  intros Hij Hx Hy.
  apply nth_error_split in Hx as (l1 & rest & -> & Hl1).
  rewrite nth_error_app2 in Hy by lia.
  replace (j - length l1)%nat with (S (j - length l1 - 1)) in Hy by lia.
  simpl in Hy.
  apply nth_error_split in Hy as (l2 & l3 & -> & Hl2).
  exists l1, l2, l3. repeat split; [assumption | lia].
Qed.

Lemma move_behind_split (l1 l2 l3 : list row) (x y : row) :
  move_behind (l1 ++ x :: l2 ++ y :: l3)
              (Z.of_nat (length l1))
              (Z.of_nat (length l1 + 1 + length l2))
  = l1 ++ (l2 ++ [y]) ++ [x] ++ l3.
Proof.
  unfold move_behind, loc_to, loc_from, loc.
  replace (Z.to_nat (Z.of_nat (length l1) - 1 + 1)) with (length l1) by lia.
  replace (Z.to_nat (Z.of_nat (length l1) + 1)) with (length l1 + 1)%nat by lia.
  replace (Z.to_nat (Z.of_nat (length l1 + 1 + length l2) + 1
                     - Z.max (Z.of_nat (length l1) + 1) 0))
    with (length l2 + 1)%nat by lia.
  replace (Z.to_nat (Z.of_nat (length l1) + 1 - Z.max (Z.of_nat (length l1)) 0))
    with 1%nat by lia.
  replace (Z.to_nat (Z.of_nat (length l1))) with (length l1) by lia.
  replace (Z.to_nat (Z.of_nat (length l1 + 1 + length l2) + 1))
    with (length l1 + (1 + (length l2 + 1)))%nat by lia.
  rewrite firstn_app, Nat.sub_diag, firstn_all. simpl firstn at 2.
  rewrite app_nil_r.
  f_equal.
  assert (Hskip1 : skipn (length l1 + 1) (l1 ++ x :: l2 ++ y :: l3)
                   = l2 ++ y :: l3).
  { rewrite skipn_app. replace (length l1 + 1 - length l1)%nat with 1%nat by lia.
    rewrite skipn_all2 by lia. reflexivity. }
  rewrite Hskip1.
  assert (Hskip0 : skipn (length l1) (l1 ++ x :: l2 ++ y :: l3)
                   = x :: l2 ++ y :: l3).
  { rewrite skipn_app, Nat.sub_diag, skipn_all. reflexivity. }
  rewrite Hskip0.
  assert (Hskip2 : skipn (length l1 + (1 + (length l2 + 1)))
                         (l1 ++ x :: l2 ++ y :: l3) = l3).
  { rewrite skipn_app.
    replace (length l1 + (1 + (length l2 + 1)) - length l1)%nat
      with (S (length l2 + 1)) by lia.
    rewrite skipn_all2 by lia. simpl.
    rewrite skipn_app. replace (length l2 + 1 - length l2)%nat with 1%nat by lia.
    rewrite skipn_all2 by lia. reflexivity. }
  rewrite Hskip2.
  replace (length l2 + 1)%nat with (length l2 + 1)%nat by lia.
  rewrite firstn_app. replace (length l2 + 1 - length l2)%nat with 1%nat by lia.
  rewrite firstn_all2 by lia. reflexivity.
Qed.

Lemma firstn_succ_nth {A} (l : list A) (m : nat) (e : A) :
  nth_error l m = Some e -> firstn (S m) l = firstn m l ++ [e].
Proof.
  revert m. induction l as [|a l IH]; intros m Hm.
  - destruct m; discriminate.
  - destruct m as [|m]; simpl in *.
    + injection Hm as ->. reflexivity.
    + now rewrite (IH m Hm).
Qed.

Lemma filter_length_app (f : row -> bool) (l l' : list row) :
  Z.of_nat (length (filter f (l ++ l')))
  = Z.of_nat (length (filter f l)) + Z.of_nat (length (filter f l')).
Proof.
  rewrite filter_app, length_app. lia.
Qed.

Lemma filter_length_one (f : row -> bool) (x : row) :
  Z.of_nat (length (filter f [x])) = Z.b2z (f x).
Proof.
  simpl. destruct (f x); reflexivity.
Qed.

(** The window after a move: the moved row has left it and the row right
    behind the window has entered it. *)
Lemma move_window (l1 l2 l3 : list row) (x y : row) (k : nat) :
  (length l1 + 2 <= k)%nat -> (k <= length l1 + 1 + length l2)%nat ->
  exists e : row,
    nth_error (l1 ++ x :: l2 ++ y :: l3) k = Some e
    /\ forall f : row -> bool,
        Z.of_nat (length (filter f
                    (firstn k (l1 ++ (l2 ++ [y]) ++ [x] ++ l3))))
        = Z.of_nat (length (filter f (firstn k (l1 ++ x :: l2 ++ y :: l3))))
          - Z.b2z (f x) + Z.b2z (f e).
Proof.
  intros Hlo Hhi.
  set (m := (k - length l1 - 1)%nat).
  assert (Hm : (m <= length l2)%nat) by lia.
  assert (He : exists e, nth_error (l2 ++ [y]) m = Some e).
  { destruct (nth_error (l2 ++ [y]) m) eqn:E; [eauto|].
    apply nth_error_None in E. rewrite length_app in E. simpl in E. lia. }
  destruct He as [e He]. exists e. split.
  - rewrite nth_error_app2 by lia.
    replace (k - length l1)%nat with (S m) by lia. simpl.
    change (y :: l3) with ([y] ++ l3). rewrite app_assoc.
    rewrite nth_error_app1; [assumption|].
    rewrite length_app. simpl. lia.
  - intros f.
    replace k with (length l1 + S m)%nat by lia.
    rewrite !firstn_app_2.
    assert (H1 : firstn (S m) ((l2 ++ [y]) ++ [x] ++ l3) = firstn m l2 ++ [e]).
    { rewrite (firstn_succ_nth _ m e).
      - f_equal. rewrite <- app_assoc, firstn_app.
        replace (m - length l2)%nat with 0%nat by lia.
        simpl. apply app_nil_r.
      - rewrite nth_error_app1; [assumption|].
        rewrite length_app. simpl. lia. }
    rewrite H1. simpl firstn.
    assert (H2 : firstn m (l2 ++ y :: l3) = firstn m l2).
    { rewrite firstn_app. replace (m - length l2)%nat with 0%nat by lia.
      simpl. apply app_nil_r. }
    rewrite H2.
    change (x :: firstn m l2) with ([x] ++ firstn m l2).
    rewrite !filter_length_app, !filter_length_one. lia.
Qed.

Lemma pro_a_not_pro_b (r : row) : pro_a r = true -> pro_b r = false.
Proof.
  unfold pro_a, pro_b, fgtb, fltb, fzero, of_int.
  destruct (stance_value r) as [q|n|]; simpl; try discriminate.
  - unfold Qltb. rewrite !negb_true_iff, negb_false_iff.
    intros H. apply Qle_bool_iff. 
    destruct (Qle_bool q (inject_Z 0)) eqn:E in H; [discriminate|].
    destruct (Qlt_le_dec (inject_Z 0) q) as [Hlt|Hle].
    + apply Qlt_le_weak. assumption.
    + apply Qle_bool_iff in Hle. congruence.
  - destruct n; simpl; congruence.
Qed.

Lemma pro_b_not_pro_a (r : row) : pro_b r = true -> pro_a r = false.
Proof.
  intros Hb. destruct (pro_a r) eqn:Ha; [|reflexivity].
  apply pro_a_not_pro_b in Ha. congruence.
Qed.

(** A move when [over] is the polarity in excess and rows [i] (in the
    head) and [j] (in the tail) are the chosen ones. *)
Lemma move_counts (k : Z) (ranking : list row) (i j : Z)
      (over under : row -> bool) :
  1 <= k ->
  In i (map fst (filter (fun item => over (snd item))
                        (iloc_to (k - 1) (reset_index ranking)))) ->
  In j (map fst (filter (fun item => under (snd item))
                        (iloc_from k (reset_index ranking)))) ->
  Permutation ranking (move_behind ranking i j)
  /\ exists e : row,
       nth_error ranking (Z.to_nat k) = Some e
       /\ forall f : row -> bool,
           Z.of_nat (length (filter f (iloc_to k (move_behind ranking i j))))
           = Z.of_nat (length (filter f (iloc_to k ranking)))
             - Z.b2z (f (nth (Z.to_nat i) ranking e)) + Z.b2z (f e)
       /\ over (nth (Z.to_nat i) ranking e) = true.
Proof.
  intros Hk Hi Hj. unfold iloc_to, iloc_from in *.
  destruct (Z.ltb_spec (k - 1) 0); [lia|].
  destruct (Z.ltb_spec k 0); [lia|].
  apply head_candidate in Hi as (ni & x & -> & Hni & Hx & Hover).
  apply tail_candidate in Hj as (nj & y & -> & Hnj & Hy & Hunder).
  destruct (two_rows_split ranking ni nj x y ltac:(lia) Hx Hy)
    as (l1 & l2 & l3 & -> & Hl1 & Hl2).
  subst ni nj. rewrite move_behind_split.
  destruct (move_window l1 l2 l3 x y (Z.to_nat k)) as (e & He & Hcount);
    [lia | lia |].
  split.
  - apply Permutation_app_head. simpl.
    apply Permutation_cons_app. rewrite <- app_assoc. reflexivity.
  - exists e. split; [assumption|].
    rewrite Nat2Z.id.
    replace (nth (length l1) (l1 ++ x :: l2 ++ y :: l3) e) with x.
    + intros f. split; [apply Hcount | assumption].
    + rewrite app_nth2 by lia. now rewrite Nat.sub_diag.
Qed.

(** C2 (as amended). An iteration of the loop that moves a row keeps the
    rows of the ranking (the new ranking is a permutation of the old one),
    never raises the imbalance of the window, and lowers it by an amount
    read off the row that stood right behind the window and enters it: by
    2 when that row is of the polarity in deficit, by 1 when it is neutral
    or has no stance value, and by 0 when it is of the polarity in
    excess. *)
Theorem C2_balanced_move_never_raises_imbalance :
  forall (self_k : nat) (ranking ranking' : list row),
    let k := Z.min (Z.of_nat self_k) (Z.of_nat (length ranking)) in
    step k ranking = Continue ranking' ->
    Permutation ranking ranking'
    /\ imbalance k ranking' <= imbalance k ranking
    /\ exists entering : row,
         nth_error ranking (Z.to_nat k) = Some entering
         /\ imbalance k ranking'
            = imbalance k ranking - lowering k ranking entering.
Proof.
  intros self_k ranking ranking' k. unfold step, imbalance, lowering.
  assert (Hk0 : 0 <= k) by (subst k; lia).
  destruct (Z.gtb_spec (Z.abs (count_pro_a k ranking - count_pro_b k ranking)) 1)
    as [Himb|]; [|discriminate].
  assert (Hk : 1 <= k).
  { destruct (Z.eq_dec k 0) as [E|]; [|lia]. exfalso. revert Himb.
    rewrite E. unfold count_pro_a, count_pro_b, iloc_to. simpl. lia. }
  destruct (Z.gtb_spec (count_pro_a k ranking - count_pro_b k ranking) 0)
    as [Hmore|Hmore].
  - destruct (rev (map fst (filter (fun item => pro_a (snd item))
                     (iloc_to (k - 1) (reset_index ranking)))))
      as [|index_a ta] eqn:Ea; [discriminate|].
    destruct (map fst (filter (fun item => pro_b (snd item))
                     (iloc_from k (reset_index ranking))))
      as [|index_b tb] eqn:Eb; [discriminate|].
    intros Heq. injection Heq as <-.
    assert (Hia : In index_a (map fst (filter (fun item => pro_a (snd item))
                     (iloc_to (k - 1) (reset_index ranking))))).
    { apply in_rev. rewrite Ea. now left. }
    assert (Hib : In index_b (map fst (filter (fun item => pro_b (snd item))
                     (iloc_from k (reset_index ranking))))).
    { rewrite Eb. now left. }
    destruct (move_counts k ranking index_a index_b pro_a pro_b Hk Hia Hib)
      as (Hperm & e & He & Hcount).
    split; [assumption|].
    destruct (Hcount pro_a) as [Ha Hx]. destruct (Hcount pro_b) as [Hb _].
    rewrite Hx in Ha. rewrite (pro_a_not_pro_b _ Hx) in Hb.
    unfold count_pro_a, count_pro_b in *. rewrite Ha, Hb.
    split.
    + destruct (pro_a e) eqn:Pa; destruct (pro_b e) eqn:Pb; simpl; lia.
    + exists e. split; [assumption|].
      destruct (pro_b e) eqn:Pb.
      * rewrite (pro_b_not_pro_a _ Pb). simpl. lia.
      * destruct (pro_a e); simpl; lia.
  - destruct (rev (map fst (filter (fun item => pro_b (snd item))
                     (iloc_to (k - 1) (reset_index ranking)))))
      as [|index_b tb] eqn:Eb; [discriminate|].
    destruct (map fst (filter (fun item => pro_a (snd item))
                     (iloc_from k (reset_index ranking))))
      as [|index_a ta] eqn:Ea; [discriminate|].
    intros Heq. injection Heq as <-.
    assert (Hib : In index_b (map fst (filter (fun item => pro_b (snd item))
                     (iloc_to (k - 1) (reset_index ranking))))).
    { apply in_rev. rewrite Eb. now left. }
    assert (Hia : In index_a (map fst (filter (fun item => pro_a (snd item))
                     (iloc_from k (reset_index ranking))))).
    { rewrite Ea. now left. }
    destruct (move_counts k ranking index_b index_a pro_b pro_a Hk Hib Hia)
      as (Hperm & e & He & Hcount).
    split; [assumption|].
    destruct (Hcount pro_a) as [Ha _]. destruct (Hcount pro_b) as [Hb Hx].
    rewrite Hx in Hb. rewrite (pro_b_not_pro_a _ Hx) in Ha.
    unfold count_pro_a, count_pro_b in *. rewrite Ha, Hb.
    split.
    + destruct (pro_a e) eqn:Pa; destruct (pro_b e) eqn:Pb; simpl; lia.
    + exists e. split; [assumption|].
      destruct (pro_a e) eqn:Pa.
      * rewrite (pro_a_not_pro_b _ Pa). simpl. lia.
      * destruct (pro_b e); simpl; lia.
Qed.

Lemma C2_balanced_move_witness :
  Permutation Examples.three_pro_a Examples.three_pro_a_moved
  /\ imbalance 2 Examples.three_pro_a_moved
     <= imbalance 2 Examples.three_pro_a
  /\ exists entering : row,
       nth_error Examples.three_pro_a 2 = Some entering
       /\ imbalance 2 Examples.three_pro_a_moved
          = imbalance 2 Examples.three_pro_a
            - lowering 2 Examples.three_pro_a entering.
Proof.
  apply (C2_balanced_move_never_raises_imbalance
           2 Examples.three_pro_a Examples.three_pro_a_moved).
  reflexivity.
Defined.

(** C2 as stated fails: with [k = 2] and the stances [+1, +1, +1, -1] the
    loop moves the first row behind the last; the row that enters the
    window is pro A again, and the imbalance of the window is 2 before and
    after the move, not lowered by 2. *)
Lemma C2_counterexample_move_keeps_imbalance :
  step (Z.min 2 (Z.of_nat (length Examples.three_pro_a)))
       Examples.three_pro_a
  = Continue Examples.three_pro_a_moved
  /\ imbalance 2 Examples.three_pro_a = 2
  /\ imbalance 2 Examples.three_pro_a_moved = 2
  /\ imbalance 2 Examples.three_pro_a_moved
     <> imbalance 2 Examples.three_pro_a - 2.
Proof.
  repeat split. vm_compute. discriminate.
Qed.

End BalancedFacts.

(** ** AlternatingStanceReranker *)

Section AlternatingFacts.
Import Reranker Reranker.Alternating.

Lemma drop_length (index : Z) (x : row) (df : DataFrame) :
  In (index, x) df -> (length (drop index df) < length df)%nat.
Proof.
  unfold drop. induction df as [|[i r] df IH]; simpl; intros Hin; [easy|].
  destruct (Z.eqb_spec i index) as [->|Hne]; simpl.
  - pose proof (filter_length_le
                  (fun item : Z * row => negb (fst item =? index)%Z) df).
    lia.
  - destruct Hin as [Heq|Hin]; [congruence|]. specialize (IH Hin). lia.
Qed.

Lemma candidates_incl (st : state) (item : Z * row) :
  In item (candidates st) -> In item (ranking st).
Proof.
  unfold candidates.
  destruct (fgtb (last_stance st) fzero);
    [|destruct (fltb (last_stance st) fzero)]; intros Hin;
    try (apply filter_In in Hin; tauto); assumption.
Qed.

Lemma step_cases (st st' : state) :
  step st = Some st' ->
  (candidates st = [] /\ st' = mkState (ranking st) (new_rows st) NaN
   /\ fgtb (last_stance st) fzero || fltb (last_stance st) fzero = true)
  \/ (exists index document,
        hd_error (candidates st) = Some (index, document)
        /\ st' = mkState (drop index (ranking st))
                         (new_rows st ++ [(index, document)])
                         (stance_value document)).
Proof.
  unfold step.
  destruct (ranking st) as [|item0 pool] eqn:Hpool; [discriminate|].
  destruct (candidates st) as [|[index document] cs] eqn:Hc;
    intros Heq; injection Heq as <-.
  - left. repeat split. unfold candidates in Hc. rewrite Hpool in Hc.
    destruct (fgtb (last_stance st) fzero); [reflexivity|].
    destruct (fltb (last_stance st) fzero); [reflexivity | discriminate].
  - right. exists index, document. split; reflexivity.
Qed.

Lemma step_measure (st st' : state) :
  step st = Some st' -> (measure st' < measure st)%nat.
Proof.
  intros Hstep. unfold measure.
  apply step_cases in Hstep
    as [(Hnil & -> & Hsign) | (index & document & Hhd & ->)];
    cbn [ranking last_stance].
  - rewrite Hsign. simpl. lia.
  - assert (Hin : In (index, document) (ranking st)).
    { apply candidates_incl. destruct (candidates st); [discriminate|].
      injection Hhd as ->. now left. }
    apply drop_length in Hin.
    destruct (_ || _), (_ || _); lia.
Qed.

(** The loop is left through its condition before the fuel runs out. *)
Lemma loop_returns (fuel : nat) (st : state) :
  (measure st < fuel)%nat ->
  exists fin : state, loop fuel st = Some fin /\ ranking fin = [].
Proof.
  revert st. induction fuel as [|fuel IH]; intros st Hfuel; [lia|].
  simpl. destruct (step st) as [st'|] eqn:Hstep.
  - apply IH. apply step_measure in Hstep. lia.
  - exists st. split; [reflexivity|].
    unfold step in Hstep. destruct (ranking st); [reflexivity|].
    destruct (candidates st) as [|[? ?] ?]; discriminate.
Qed.

Lemma _transform_query_returns (ranking : DataFrame) :
  exists fin : state,
    loop (2 * length ranking + 1) (mkState ranking [] NaN) = Some fin
    /\ _transform_query ranking = Some (reset_score (new_rows fin)).
Proof.
  destruct (loop_returns (2 * length ranking + 1) (mkState ranking [] NaN))
    as (fin & Hloop & _).
  - unfold measure. simpl. lia.
  - exists fin. split; [assumption|].
    unfold _transform_query. now rewrite Hloop.
Qed.

Lemma filter_nil_forall {A} (f : A -> bool) (l : list A) :
  filter f l = [] -> forall a, In a l -> f a = false.
Proof.
  intros Hnil a Hin. destruct (f a) eqn:Hf; [|reflexivity].
  assert (Hin' : In a (filter f l)) by (apply filter_In; auto).
  rewrite Hnil in Hin'. destruct Hin'.
Qed.

Lemma fgtb_fltb_exclusive (v : float) :
  fgtb v fzero = true -> fltb v fzero = false.
Proof.
  intros H.
  apply (pro_a_not_pro_b (mkRow EmptyString EmptyString NaN 0 v None)).
  exact H.
Qed.

Lemma step_inv (st st' : state) : inv st -> step st = Some st' -> inv st'.
Proof.
  intros Hinv Hstep pre x Hrows.
  apply step_cases in Hstep
    as [(Hnil & -> & Hsign) | (index & document & Hhd & ->)]; simpl in *.
  - right. split; [reflexivity|]. intros c Hc.
    destruct (Hinv pre x Hrows) as [Hlast | [Hnan _]].
    + unfold candidates in Hnil. unfold opposite_or_neutral.
      rewrite <- Hlast.
      destruct (fgtb (last_stance st) fzero) eqn:Hgt; simpl.
      * rewrite (fgtb_fltb_exclusive _ Hgt). simpl. rewrite orb_false_r.
        apply (filter_nil_forall _ _ Hnil c Hc).
      * destruct (fltb (last_stance st) fzero) eqn:Hlt; simpl;
          [|reflexivity].
        apply (filter_nil_forall _ _ Hnil c Hc).
    + rewrite Hnan in Hsign. discriminate.
  - left. apply app_inj_tail in Hrows as [_ <-]. reflexivity.
Qed.

Lemma fleb_not_fgtb (v : float) :
  fleb v fzero = true -> fgtb v fzero = false.
Proof.
  unfold fgtb, fleb, fltb, fzero, of_int.
  destruct v as [q|[]|]; simpl; try discriminate; try reflexivity.
  unfold Qltb. intros ->. reflexivity.
Qed.

Lemma fgeb_not_fltb (v : float) :
  fgeb v fzero = true -> fltb v fzero = false.
Proof.
  unfold fgeb, fleb, fltb, fzero, of_int.
  destruct v as [q|[]|]; simpl; try discriminate; try reflexivity.
  unfold Qltb. intros ->. reflexivity.
Qed.

(** When a row is placed right after a row of its own sign, the pool holds
    no row of the opposite sign and no neutral row. *)
Lemma selection_pool (st st' : state) (pre : DataFrame) (x y : Z * row) :
  inv st -> step st = Some st' ->
  new_rows st = pre ++ [x] -> new_rows st' = new_rows st ++ [y] ->
  same_sign (snd x) (snd y) = true ->
  forall c, In c (ranking st) -> opposite_or_neutral (snd x) (snd c) = false.
Proof.
  intros Hinv Hstep Hrows Hrows' Hsame.
  destruct (Hinv pre x Hrows) as [Hlast | [_ Hpool]]; [|assumption].
  exfalso.
  apply step_cases in Hstep
    as [(Hnil & -> & Hsign) | (index & document & Hhd & ->)];
    cbn [new_rows] in Hrows'.
  - apply (f_equal (@length _)) in Hrows'. rewrite length_app in Hrows'.
    simpl in Hrows'. lia.
  - apply app_inv_head in Hrows'. injection Hrows' as <-.
    cbn [snd] in Hsame.
    assert (Hin : In (index, document) (candidates st)).
    { destruct (candidates st); [discriminate|].
      injection Hhd as ->. now left. }
    unfold candidates in Hin. rewrite Hlast in Hin.
    unfold same_sign in Hsame.
    destruct (fgtb (stance_value (snd x)) fzero) eqn:Hgt.
    + apply filter_In in Hin as [_ Hle]. cbn [snd] in Hle.
      rewrite (fleb_not_fgtb _ Hle), (fgtb_fltb_exclusive _ Hgt) in Hsame.
      discriminate.
    + destruct (fltb (stance_value (snd x)) fzero) eqn:Hlt;
        [|discriminate].
      apply filter_In in Hin as [_ Hge]. cbn [snd] in Hge.
      rewrite (fgeb_not_fltb _ Hge) in Hsame. discriminate.
Qed.


Lemma loop_appends (fuel : nat) (st fin : state) :
  loop fuel st = Some fin ->
  exists suffix, new_rows fin = new_rows st ++ suffix.
Proof.
  revert st. induction fuel as [|fuel IH]; intros st Hloop; [discriminate|].
  simpl in Hloop. destruct (step st) as [st'|] eqn:Hstep.
  - destruct (IH st' Hloop) as [suffix Hfin].
    apply step_cases in Hstep
      as [(_ & -> & _) | (index & document & _ & ->)];
      cbn [new_rows] in Hfin.
    + eauto.
    + rewrite <- app_assoc in Hfin. eauto.
  - injection Hloop as <-. exists []. now rewrite app_nil_r.
Qed.

(** Every row that the loop places right after a row of its own sign is
    placed from a pool without a row of the opposite sign or a neutral
    row. *)
Lemma loop_pools (fuel : nat) (st fin : state) :
  inv st -> loop fuel st = Some fin ->
  forall (j : nat) (x y : Z * row),
    (length (new_rows st) <= S j)%nat ->
    nth_error (new_rows fin) j = Some x ->
    nth_error (new_rows fin) (S j) = Some y ->
    same_sign (snd x) (snd y) = true ->
    exists pool : DataFrame,
      pool_at fuel st (S j) = Some pool
      /\ forall c, In c pool -> opposite_or_neutral (snd x) (snd c) = false.
Proof.
  revert st. induction fuel as [|fuel IH]; intros st Hinv Hloop j x y Hlen Hx Hy
    Hsame; [discriminate|].
  simpl in Hloop. simpl pool_at.
  destruct (step st) as [st'|] eqn:Hstep.
  - pose proof (step_inv st st' Hinv Hstep) as Hinv'.
    destruct (loop_appends fuel st' fin Hloop) as [suffix Hfin].
    pose proof Hstep as Hcases.
    apply step_cases in Hcases
      as [(_ & Hst' & _) | (index & document & _ & Hst')].
    + (* no candidate: nothing is placed *)
      assert (Hsame_rows : new_rows st' = new_rows st) by (now subst st').
      rewrite Hsame_rows.
      destruct (Nat.eqb_spec (length (new_rows st)) (S j)) as [E|E]; simpl.
      * rewrite E.
        destruct (Nat.eqb_spec (S j) (S (S j))) as [E'|_]; [lia|].
        apply (IH st' Hinv' Hloop j x y); try assumption.
        rewrite Hsame_rows. assumption.
      * apply (IH st' Hinv' Hloop j x y); try assumption.
        rewrite Hsame_rows. assumption.
    + assert (Hrows' : new_rows st' = new_rows st ++ [(index, document)])
        by (now subst st').
      destruct (Nat.eqb_spec (length (new_rows st)) (S j)) as [E|E]; simpl.
      * (* the row at position [S j] is placed now *)
        assert (E' : length (new_rows st') = S (S j)).
        { rewrite Hrows', length_app. simpl. lia. }
        rewrite E', Nat.eqb_refl.
        exists (ranking st). split; [reflexivity|].
        rewrite Hfin, Hrows' in Hx, Hy.
        rewrite <- app_assoc in Hx, Hy.
        rewrite nth_error_app1 in Hx by lia.
        rewrite nth_error_app2 in Hy by lia.
        rewrite E, Nat.sub_diag in Hy. simpl in Hy. injection Hy as <-.
        assert (Hlast : exists pre, new_rows st = pre ++ [x]).
        { destruct (nth_error_split _ _ Hx) as (pre & post & Hsplit & Hpre).
          exists pre. rewrite Hsplit. f_equal.
          rewrite Hsplit, length_app in E. simpl in E.
          destruct post; [reflexivity | simpl in E; lia]. }
        destruct Hlast as [pre Hpre].
        apply (selection_pool st st' pre x (index, document));
          assumption.
      * apply (IH st' Hinv' Hloop j x y); try assumption.
        rewrite Hrows', length_app. simpl. lia.
  - injection Hloop as <-.
    assert (S j < length (new_rows st))%nat
      by (apply nth_error_Some; congruence).
    lia.
Qed.

Lemma reset_score_nth_inv (df : DataFrame) (j : nat) (x : Z * row) :
  nth_error (reset_score df) j = Some x ->
  exists r : row,
    nth_error df j = Some (fst x, r)
    /\ stance_value (snd x) = stance_value r.
Proof.
  intros Hx.
  destruct (nth_error df j) as [[index r]|] eqn:Hdf.
  - rewrite (reset_score_nth df j index r Hdf) in Hx. injection Hx as <-.
    exists r. split; reflexivity.
  - apply nth_error_None in Hdf. rewrite <- reset_score_length in Hdf.
    apply nth_error_None in Hdf. congruence.
Qed.

(** C6. For every ranking the re-ranker returns a frame, and wherever two
    consecutive rows of it are both pro A or both pro B, the pool from
    which the second of them was chosen (the rows not yet placed at that
    moment) held no candidate of the opposite sign and no neutral one. *)
Theorem C6_alternating_same_sign_only_without_alternative :
  forall ranking : DataFrame,
  exists out : DataFrame,
    _transform_query ranking = Some out
    /\ forall (j : nat) (x y : Z * row),
        nth_error out j = Some x ->
        nth_error out (S j) = Some y ->
        same_sign (snd x) (snd y) = true ->
        exists remaining : DataFrame,
          pool ranking (S j) = Some remaining
          /\ forall c, In c remaining ->
                       opposite_or_neutral (snd x) (snd c) = false.
Proof.
  intros ranking.
  destruct (_transform_query_returns ranking) as (fin & Hloop & Hout).
  exists (reset_score (new_rows fin)). split; [assumption|].
  intros j x y Hx Hy Hsame.
  apply reset_score_nth_inv in Hx as (rx & Hx & Hsx).
  apply reset_score_nth_inv in Hy as (ry & Hy & Hsy).
  assert (Hinv : inv (mkState ranking [] NaN)).
  { intros pre x0 Hrows. simpl in Hrows. destruct pre; discriminate. }
  destruct (loop_pools _ _ _ Hinv Hloop j (fst x, rx) (fst y, ry))
    as (remaining & Hpool & Hnone).
  - simpl. lia.
  - assumption.
  - assumption.
  - unfold same_sign in *. cbn [snd]. now rewrite <- Hsx, <- Hsy.
  - exists remaining. split; [exact Hpool|].
    intros c Hc. specialize (Hnone c Hc).
    unfold opposite_or_neutral in *. cbn [snd] in Hnone.
    now rewrite Hsx.
Qed.

(** On the stances +1, +1, +1, -1 the re-ranker returns a, d, b, c: b
    follows d, of the other sign, and c follows b, of its own sign, when c
    is all that is left. *)
Example alternating_three_pro_a :
  option_map (map (fun item => docno (snd item)))
             (_transform_query (reset_index Examples.three_pro_a))
  = Some ["a"; "d"; "b"; "c"]%string
  /\ option_map (map (fun item => docno (snd item)))
                (pool (reset_index Examples.three_pro_a) 3)
     = Some ["c"%string].
Proof.
  split; reflexivity.
Qed.

End AlternatingFacts.

(** ** Score normalization, InverseStanceGainReranker, BoostMinorityStanceReranker *)

Section ScoreFacts.
Import Reranker.

Lemma deref_app (h : store) (x : DataFrame) (r : ref) :
  (r < length h)%nat -> deref (h ++ [x]) r = deref h r.
Proof.
  intros Hr. unfold deref. now rewrite app_nth1.
Qed.

Lemma deref_new (h : store) (x : DataFrame) :
  deref (h ++ [x]) (length h) = x.
Proof.
  unfold deref. rewrite app_nth2, Nat.sub_diag by lia. reflexivity.
Qed.

Lemma write_length (h : store) (r : ref) (df : DataFrame) :
  length (write h r df) = length h.
Proof.
  revert r. induction h as [|x h IH]; intros r; simpl; [reflexivity|].
  destruct r; simpl; [reflexivity | now rewrite IH].
Qed.

Lemma deref_write_other (h : store) (r r' : ref) (df : DataFrame) :
  r <> r' -> deref (write h r' df) r = deref h r.
Proof.
  unfold deref. revert r r'. induction h as [|x h IH]; intros r r' Hne; simpl.
  - reflexivity.
  - destruct r' as [|r']; destruct r as [|r]; simpl; try reflexivity;
      try congruence.
    apply IH. congruence.
Qed.

Lemma deref_write_same (h : store) (r : ref) (df : DataFrame) :
  (r < length h)%nat -> deref (write h r df) r = df.
Proof.
  unfold deref. revert r. induction h as [|x h IH]; intros r Hr; simpl in *.
  - lia.
  - destruct r as [|r]; simpl; [reflexivity|]. apply IH. lia.
Qed.

(** [_normalize_scores] never writes to the frame it is given, whatever
    [inplace] is: its first statement rebinds the name to a copy. *)
Lemma _normalize_scores_leaves_argument (h : store) (ranking : ref)
      (inplace : bool) :
  (ranking < length h)%nat ->
  deref (fst (_normalize_scores h ranking inplace)) ranking = deref h ranking.
Proof.
  intros Hr. unfold _normalize_scores, copy.
  destruct inplace; simpl.
  - rewrite deref_write_other by lia. now apply deref_app.
  - rewrite deref_write_other by (rewrite length_app; simpl; lia).
    rewrite deref_app by (rewrite length_app; simpl; lia).
    now apply deref_app.
Qed.


Lemma normalized_eq (df : DataFrame) (inplace : bool) :
  InverseStanceGain.normalized df inplace
  = assign_score df
      (map (fun s => fdiv (fsub s (series_min (scores df)))
                          (fsub (series_max (scores df))
                                (series_min (scores df))))
           (scores df)).
Proof.
  destruct inplace; reflexivity.
Qed.

Lemma scores_assign_score (df : DataFrame) (values : list float) :
  length values = length df -> scores (assign_score df values) = values.
Proof.
  unfold scores, assign_score. revert values.
  induction df as [|[index r] df IH]; intros [|v values] Hlen;
    try discriminate; simpl; [reflexivity|].
  f_equal. apply IH. simpl in Hlen. lia.
Qed.

Lemma fold_choice_is_number (s : Q) (choose : float -> float -> bool)
      (l : list float) (x : float) :
  is_number s x -> Forall (is_number s) l ->
  is_number s (fold_left (fun m y => if choose m y then m else y) l x).
Proof.
  revert x. induction l as [|y l IH]; intros x Hx Hl; simpl.
  - assumption.
  - inversion Hl; subst. apply IH; [|assumption].
    destruct (choose x y); assumption.
Qed.

Lemma filter_numbers (s : Q) (l : list float) :
  Forall (is_number s) l -> filter (fun x => negb (isnan x)) l = l.
Proof.
  induction 1 as [|x l (q & -> & _) _ IH]; simpl; [reflexivity|].
  now rewrite IH.
Qed.

Lemma series_min_is_number (s : Q) (l : list float) :
  l <> [] -> Forall (is_number s) l -> is_number s (series_min l).
Proof.
  intros Hne Hl. unfold series_min. rewrite (filter_numbers s l Hl).
  destruct l as [|x l]; [congruence|]. inversion Hl; subst.
  now apply (fold_choice_is_number s fleb).
Qed.

Lemma series_max_is_number (s : Q) (l : list float) :
  l <> [] -> Forall (is_number s) l -> is_number s (series_max l).
Proof.
  intros Hne Hl. unfold series_max. rewrite (filter_numbers s l Hl).
  destruct l as [|x l]; [congruence|]. inversion Hl; subst.
  now apply (fold_choice_is_number s (fun m y => fleb y m)).
Qed.

Lemma fsub_numbers (s : Q) (x y : float) :
  is_number s x -> is_number s y -> is_number 0%Q (fsub x y).
Proof.
  intros (p & -> & Hp) (q & -> & Hq). unfold fsub, fneg, fadd.
  eexists. split; [reflexivity|].
  rewrite !Qred_correct, Hp, Hq. ring.
Qed.

Lemma fdiv_zero_zero (x y : float) :
  is_number 0%Q x -> is_number 0%Q y -> fdiv x y = NaN.
Proof.
  intros (p & -> & Hp) (q & -> & Hq). unfold fdiv.
  rewrite (proj2 (Qeq_bool_iff q 0%Q) Hq), (proj2 (Qeq_bool_iff p 0%Q) Hp).
  reflexivity.
Qed.

(** When all scores of a frame are the same number, the normalization
    divides 0 by 0 in every row: the frame it returns holds [nan] in every
    score. *)
Lemma normalized_equal_scores (df : DataFrame) (s : Q) (inplace : bool) :
  df <> [] ->
  Forall (is_number s) (scores df) ->
  scores (InverseStanceGain.normalized df inplace)
  = map (fun _ => NaN) (scores df).
Proof.
  intros Hne Hall. rewrite normalized_eq.
  rewrite scores_assign_score by (rewrite length_map; unfold scores;
                                  apply length_map).
  assert (Hne' : scores df <> []) by (destruct df; [congruence | discriminate]).
  pose proof (series_min_is_number s _ Hne' Hall) as Hmin.
  pose proof (series_max_is_number s _ Hne' Hall) as Hmax.
  apply map_ext_in. intros x Hx.
  apply fdiv_zero_zero.
  - apply (fsub_numbers s); [|assumption].
    rewrite Forall_forall in Hall. now apply Hall.
  - now apply (fsub_numbers s).
Qed.


(** C7. [BoostMinorityStanceReranker._rerank_query] raises for every
    ranking and every boost: the key function of [sorted] calls
    [dict.get] with a keyword argument.  In particular no score is
    doubled for the labels FIRST, FIRST, SECOND and an absent label with
    the boost 2. *)
Theorem C7_boost_minority_raises :
  (forall (boost : float) (ranking : DataFrame),
      BoostMinority._rerank_query boost ranking
      = inl (TypeError DictGetKeywordArgument))
  /\ BoostMinority._rerank_query (of_int 2) Examples.boost_ranking
     = inl (TypeError DictGetKeywordArgument).
Proof.
  split; reflexivity.
Qed.

End ScoreFacts.

(** ** Termination of the loop of BalancedStanceReranker *)

Section BalancedTermination.
Import Reranker Reranker.Balanced.
Local Open Scope Z_scope.

Lemma first_pos_le (f : row -> bool) (l : list row) :
  (first_pos f l <= length l)%nat.
Proof.
  induction l as [|z l IH]; simpl; [lia|]. destruct (f z); lia.
Qed.

Lemma first_pos_app (f : row -> bool) (l t : list row) (y : row) :
  (forall z, In z l -> f z = false) -> f y = true ->
  first_pos f (l ++ y :: t) = length l.
Proof.
  intros Hl Hy. induction l as [|z l IH]; simpl.
  - now rewrite Hy.
  - rewrite (Hl z) by now left. f_equal. apply IH.
    intros z' Hz'. apply Hl. now right.
Qed.

Lemma filter_first {A} (f : A -> bool) (l : list A) (x : A) (t : list A) :
  filter f l = x :: t ->
  exists pre post, l = pre ++ x :: post /\ filter f pre = [] /\ f x = true.
Proof.
  induction l as [|a l IH]; simpl; [discriminate|].
  destruct (f a) eqn:Hfa.
  - intros Heq. injection Heq as -> _. exists [], l. auto.
  - intros Heq. destruct (IH Heq) as (pre & post & -> & Hpre & Hx).
    exists (a :: pre), post. simpl. rewrite Hfa. auto.
Qed.

(** The first candidate of the tail: the rows between the window and it
    are no candidates. *)
Lemma tail_first_candidate (f : row -> bool) (m : nat) (l : list row)
      (i : Z) (t : list Z) :
  map fst (filter (fun item => f (snd item)) (skipn m (reset_index l)))
  = i :: t ->
  exists (j : nat) (y : row),
    i = Z.of_nat j /\ (m <= j)%nat /\ nth_error l j = Some y /\ f y = true
    /\ forall (p : nat) (z : row),
         (m <= p < j)%nat -> nth_error l p = Some z -> f z = false.
Proof.
  intros Hmap.
  destruct (filter (fun item => f (snd item)) (skipn m (reset_index l)))
    as [|[i' y] cs] eqn:Hf; [discriminate|].
  simpl in Hmap. injection Hmap as -> _.
  apply filter_first in Hf as (pre & post & Hsplit & Hpre & Hy).
  simpl in Hy.
  assert (Hat : nth_error (skipn m (reset_index l)) (length pre)
                = Some (i, y)).
  { rewrite Hsplit, nth_error_app2, Nat.sub_diag by lia. reflexivity. }
  rewrite nth_error_skipn in Hat.
  apply reset_index_nth_inv in Hat as [-> Hy'].
  exists (m + length pre)%nat, y. repeat split; auto; [lia|].
  intros p z Hp Hz.
  assert (Hin : In (Z.of_nat p, z) pre).
  { apply (reset_index_nth l p z) in Hz.
    replace p with (m + (p - m))%nat in Hz at 1 by lia.
    rewrite <- nth_error_skipn, Hsplit, nth_error_app1 in Hz by lia.
    apply nth_error_In in Hz. assumption. }
  apply (filter_nil_forall _ _ Hpre) in Hin. exact Hin.
Qed.

(** The shape of a ranking in which the loop moves a row, and of the
    ranking after the move. *)
Lemma move_shape (k : Z) (ranking : list row) (i j : Z) (t : list Z)
      (over under : row -> bool) :
  1 <= k ->
  In i (map fst (filter (fun item => over (snd item))
                        (iloc_to (k - 1) (reset_index ranking)))) ->
  map fst (filter (fun item => under (snd item))
                  (iloc_from k (reset_index ranking))) = j :: t ->
  exists (l1 l2 l3 : list row) (x y : row),
    ranking = l1 ++ x :: l2 ++ y :: l3
    /\ move_behind ranking i j = l1 ++ (l2 ++ [y]) ++ [x] ++ l3
    /\ (length l1 + 2 <= Z.to_nat k)%nat
    /\ (Z.to_nat k <= length l1 + 1 + length l2)%nat
    /\ over x = true /\ under y = true
    /\ forall z, In z (skipn (Z.to_nat k - length l1 - 1) l2) ->
                 under z = false.
Proof.
  intros Hk Hi Hj. unfold iloc_to, iloc_from in *.
  destruct (Z.ltb_spec (k - 1) 0); [lia|].
  apply head_candidate in Hi as (ni & x & -> & Hni & Hx & Hover).
  apply tail_first_candidate in Hj
    as (nj & y & -> & Hnj & Hy & Hunder & Hfirst).
  destruct (two_rows_split ranking ni nj x y ltac:(lia) Hx Hy)
    as (l1 & l2 & l3 & -> & Hl1 & Hl2).
  subst ni nj. exists l1, l2, l3, x, y.
  split; [reflexivity|]. split; [apply move_behind_split|].
  repeat split; try assumption; try lia.
  intros z Hz. apply In_nth_error in Hz as [q Hq].
  rewrite nth_error_skipn in Hq.
  assert (Hlen : (Z.to_nat k - length l1 - 1 + q < length l2)%nat)
    by (apply nth_error_Some; congruence).
  apply (Hfirst (length l1 + 1 + (Z.to_nat k - length l1 - 1 + q))%nat z);
    [lia|].
  rewrite nth_error_app2 by lia.
  replace (length l1 + 1 + (Z.to_nat k - length l1 - 1 + q) - length l1)%nat
    with (S (Z.to_nat k - length l1 - 1 + q)) by lia.
  simpl. rewrite nth_error_app1 by lia. assumption.
Qed.

(** Where the first row of the polarity in deficit stands behind the
    window, before and after a move. *)
Lemma move_first_pos (under : row -> bool) (l1 l2 l3 : list row)
      (x y e : row) (k : nat) :
  (length l1 + 2 <= k)%nat -> (k <= length l1 + 1 + length l2)%nat ->
  under y = true ->
  (forall z, In z (skipn (k - length l1 - 1) l2) -> under z = false) ->
  nth_error (l1 ++ x :: l2 ++ y :: l3) k = Some e ->
  first_pos under (skipn k (l1 ++ x :: l2 ++ y :: l3))
  = (length l1 + 1 + length l2 - k)%nat
  /\ (under e = false ->
      (S (first_pos under (skipn k (l1 ++ (l2 ++ [y]) ++ [x] ++ l3)))
       = length l1 + 1 + length l2 - k)%nat).
Proof.
  intros Hlo Hhi Hy Hnone He.
  set (m := (k - length l1 - 1)%nat) in *.
  assert (Hskip : skipn k (l1 ++ x :: l2 ++ y :: l3)
                  = skipn m l2 ++ y :: l3).
  { rewrite skipn_app, skipn_all2 by lia.
    replace (k - length l1)%nat with (S m) by lia. simpl.
    rewrite skipn_app. replace (m - length l2)%nat with 0%nat by lia.
    reflexivity. }
  split.
  - rewrite Hskip, first_pos_app by assumption.
    rewrite length_skipn. lia.
  - intros Hue.
    assert (Hm : (m < length l2)%nat).
    { destruct (Nat.eq_dec m (length l2)) as [E|]; [|lia]. exfalso.
      rewrite nth_error_app2 in He by lia.
      replace (k - length l1)%nat with (S m) in He by lia. simpl in He.
      rewrite nth_error_app2, E, Nat.sub_diag in He by lia.
      simpl in He. injection He as <-. congruence. }
    assert (Hskip' : skipn k (l1 ++ (l2 ++ [y]) ++ [x] ++ l3)
                     = skipn (S m) l2 ++ y :: x :: l3).
    { rewrite skipn_app, skipn_all2 by lia.
      replace (k - length l1)%nat with (S m) by lia. cbn [app].
      rewrite <- app_assoc. rewrite skipn_app.
      replace (S m - length l2)%nat with 0%nat by lia. reflexivity. }
    rewrite Hskip', first_pos_app; [rewrite length_skipn; lia | | assumption].
    intros z Hz. apply Hnone.
    apply In_nth_error in Hz as [q Hq]. rewrite nth_error_skipn in Hq.
    apply (nth_error_In _ (S q)). rewrite nth_error_skipn.
    rewrite <- Hq. f_equal. lia.
Qed.

Lemma count_le_k (f : row -> bool) (k : Z) (ranking : list row) :
  0 <= k ->
  0 <= Z.of_nat (length (filter f (iloc_to k ranking))) <= k.
Proof.
  intros Hk. unfold iloc_to. destruct (Z.ltb_spec k 0); [lia|].
  pose proof (filter_length_le f (firstn (Z.to_nat k) ranking)) as H1.
  pose proof (firstn_le_length (Z.to_nat k) ranking) as H2.
  rewrite length_firstn in H1. lia.
Qed.

Lemma first_pos_tail_le (f : row -> bool) (k : Z) (l : list row) :
  (first_pos f (iloc_from k l) <= length l)%nat.
Proof.
  unfold iloc_from. etransitivity; [apply first_pos_le|].
  rewrite length_skipn. lia.
Qed.

(** One move, for either polarity in excess: the excess in the window
    stays non-negative and does not grow, and when it stays as it is the
    first row of the polarity in deficit has come one place closer. *)
Lemma move_variant (k : Z) (ranking : list row) (i j : Z) (t : list Z)
      (over under : row -> bool) :
  1 <= k <= Z.of_nat (length ranking) ->
  (forall r, over r = true -> under r = false) ->
  In i (map fst (filter (fun item => over (snd item))
                        (iloc_to (k - 1) (reset_index ranking)))) ->
  map fst (filter (fun item => under (snd item))
                  (iloc_from k (reset_index ranking))) = j :: t ->
  forall excess excess' : Z,
    excess = Z.of_nat (length (filter over (iloc_to k ranking)))
             - Z.of_nat (length (filter under (iloc_to k ranking))) ->
    excess' = Z.of_nat (length (filter over
                                  (iloc_to k (move_behind ranking i j))))
              - Z.of_nat (length (filter under
                                    (iloc_to k (move_behind ranking i j)))) ->
    2 <= excess ->
    length (move_behind ranking i j) = length ranking
    /\ 0 <= excess' <= excess
    /\ (excess' = excess ->
        (first_pos under (iloc_from k (move_behind ranking i j))
         < first_pos under (iloc_from k ranking))%nat).
Proof.
  intros Hk Hexcl Hi Hj excess excess' -> -> Hexcess.
  destruct (move_shape k ranking i j t over under ltac:(lia) Hi Hj)
    as (l1 & l2 & l3 & x & y & Hr & Hr' & Hlo & Hhi & Hx & Hy & Hnone).
  rewrite Hr'. subst ranking.
  destruct (move_window l1 l2 l3 x y (Z.to_nat k) Hlo Hhi)
    as (e & He & Hcount).
  assert (Hlen : length (l1 ++ (l2 ++ [y]) ++ [x] ++ l3)
                 = length (l1 ++ x :: l2 ++ y :: l3)).
  { rewrite !length_app. simpl. rewrite !length_app. simpl. lia. }
  split; [exact Hlen|].
  unfold iloc_to, iloc_from in *.
  destruct (Z.ltb_spec k 0); [lia|].
  rewrite !Hcount, Hx, (Hexcl x Hx). simpl Z.b2z.
  destruct (move_first_pos under l1 l2 l3 x y e (Z.to_nat k)
              Hlo Hhi Hy Hnone He) as [Hpos Hpos'].
  destruct (under e) eqn:Hue.
  - assert (Hoe : over e = false).
    { destruct (over e) eqn:Hoe; [|reflexivity].
      apply Hexcl in Hoe. congruence. }
    rewrite Hoe. simpl Z.b2z. split; lia.
  - specialize (Hpos' eq_refl).
    destruct (over e); simpl Z.b2z; split; lia.
Qed.

Lemma variant_arith (X Y n p p' : nat) :
  (X + 1 <= Y)%nat -> (p' <= n)%nat ->
  (X * (n + 1) + p' < Y * (n + 1) + p)%nat.
Proof.
  nia.
Qed.

Lemma step_variant (k : Z) (ranking ranking' : list row) :
  0 <= k <= Z.of_nat (length ranking) ->
  step k ranking = Continue ranking' ->
  length ranking' = length ranking
  /\ (variant k ranking' < variant k ranking)%nat.
Proof.
  intros Hk0. unfold step.
  destruct (Z.gtb_spec (Z.abs (count_pro_a k ranking - count_pro_b k ranking)) 1)
    as [Himb|]; [|discriminate].
  assert (Hk : 1 <= k <= Z.of_nat (length ranking)).
  { destruct (Z.eq_dec k 0) as [E|]; [|lia]. exfalso. revert Himb.
    rewrite E. unfold count_pro_a, count_pro_b, iloc_to. simpl. lia. }
  destruct (Z.gtb_spec (count_pro_a k ranking - count_pro_b k ranking) 0)
    as [Hmore|Hmore].
  - destruct (rev (map fst (filter (fun item => pro_a (snd item))
                     (iloc_to (k - 1) (reset_index ranking)))))
      as [|index_a ta] eqn:Ea; [discriminate|].
    destruct (map fst (filter (fun item => pro_b (snd item))
                     (iloc_from k (reset_index ranking))))
      as [|index_b tb] eqn:Eb; [discriminate|].
    intros Heq. injection Heq as <-.
    assert (Hia : In index_a (map fst (filter (fun item => pro_a (snd item))
                     (iloc_to (k - 1) (reset_index ranking))))).
    { apply in_rev. rewrite Ea. now left. }
    destruct (move_variant k ranking index_a index_b tb pro_a pro_b Hk
                pro_a_not_pro_b Hia Eb
                (count_pro_a k ranking - count_pro_b k ranking)
                (count_pro_a k (move_behind ranking index_a index_b)
                 - count_pro_b k (move_behind ranking index_a index_b))
                eq_refl eq_refl ltac:(lia))
      as (Hlen & Hexcess & Hdec).
    split; [assumption|].
    unfold variant, imbalance, under_of. rewrite Hlen.
    destruct (Z.gtb_spec (count_pro_a k ranking - count_pro_b k ranking) 0)
      as [_|]; [|lia].
    destruct (Z.eq_dec
                (count_pro_a k (move_behind ranking index_a index_b)
                 - count_pro_b k (move_behind ranking index_a index_b))
                (count_pro_a k ranking - count_pro_b k ranking)) as [E|E].
    + rewrite E.
      destruct (Z.gtb_spec (count_pro_a k ranking - count_pro_b k ranking) 0)
        as [_|]; [|lia].
      specialize (Hdec E). lia.
    + apply variant_arith; [lia | rewrite <- Hlen; apply first_pos_tail_le].
  - destruct (rev (map fst (filter (fun item => pro_b (snd item))
                     (iloc_to (k - 1) (reset_index ranking)))))
      as [|index_b tb] eqn:Eb; [discriminate|].
    destruct (map fst (filter (fun item => pro_a (snd item))
                     (iloc_from k (reset_index ranking))))
      as [|index_a ta] eqn:Ea; [discriminate|].
    intros Heq. injection Heq as <-.
    assert (Hib : In index_b (map fst (filter (fun item => pro_b (snd item))
                     (iloc_to (k - 1) (reset_index ranking))))).
    { apply in_rev. rewrite Eb. now left. }
    destruct (move_variant k ranking index_b index_a ta pro_b pro_a Hk
                pro_b_not_pro_a Hib Ea
                (count_pro_b k ranking - count_pro_a k ranking)
                (count_pro_b k (move_behind ranking index_b index_a)
                 - count_pro_a k (move_behind ranking index_b index_a))
                eq_refl eq_refl ltac:(lia))
      as (Hlen & Hexcess & Hdec).
    split; [assumption|].
    unfold variant, imbalance, under_of. rewrite Hlen.
    destruct (Z.gtb_spec (count_pro_a k ranking - count_pro_b k ranking) 0)
      as [|_]; [lia|].
    destruct (Z.eq_dec
                (count_pro_b k (move_behind ranking index_b index_a)
                 - count_pro_a k (move_behind ranking index_b index_a))
                (count_pro_b k ranking - count_pro_a k ranking)) as [E|E].
    + destruct (Z.gtb_spec
                  (count_pro_a k (move_behind ranking index_b index_a)
                   - count_pro_b k (move_behind ranking index_b index_a)) 0)
        as [|_]; [lia|].
      specialize (Hdec E).
      replace (Z.abs (count_pro_a k (move_behind ranking index_b index_a)
                      - count_pro_b k (move_behind ranking index_b index_a)))
        with (Z.abs (count_pro_a k ranking - count_pro_b k ranking)) by lia.
      lia.
    + apply variant_arith; [lia | rewrite <- Hlen; apply first_pos_tail_le].
Qed.

(** The loop is left before the fuel runs out. *)
Lemma loop_returns_balanced (fuel : nat) (k : Z) (ranking : list row) :
  0 <= k <= Z.of_nat (length ranking) ->
  (variant k ranking < fuel)%nat ->
  exists e : exit, loop fuel k ranking = Some e.
Proof.
  revert ranking. induction fuel as [|fuel IH]; intros ranking Hk Hfuel;
    [lia|].
  simpl. destruct (step k ranking) as [| |ranking'] eqn:Hstep; eauto.
  destruct (step_variant k ranking ranking' Hk Hstep) as [Hlen Hlt].
  apply IH; [rewrite Hlen; assumption | lia].
Qed.

Lemma variant_lt_fuel (k : Z) (ranking : list row) :
  0 <= k <= Z.of_nat (length ranking) ->
  (variant k ranking < fuel_for ranking)%nat.
Proof.
  intros Hk. unfold variant, fuel_for, imbalance.
  pose proof (first_pos_tail_le (under_of k ranking) k ranking) as Hp.
  pose proof (count_le_k pro_a k ranking ltac:(lia)) as Ha.
  pose proof (count_le_k pro_b k ranking ltac:(lia)) as Hb.
  unfold count_pro_a, count_pro_b.
  set (n := length ranking) in *.
  assert (Hd : (Z.to_nat (Z.abs
             (Z.of_nat (length (filter pro_a (iloc_to k ranking)))
              - Z.of_nat (length (filter pro_b (iloc_to k ranking)))))
           <= n)%nat) by lia.
  nia.
Qed.

(** [BalancedStanceReranker._transform_query] returns for every [k] and
    every ranking. *)
Lemma balanced_transform_query_returns (self_k : nat) (ranking : DataFrame) :
  exists out : DataFrame, _transform_query self_k ranking = Some out.
Proof.
  unfold _transform_query.
  assert (Hlen : length (rows ranking) = length ranking)
    by (unfold rows; apply length_map).
  destruct (loop_returns_balanced (fuel_for (rows ranking))
              (Z.min (Z.of_nat self_k) (Z.of_nat (length ranking)))
              (rows ranking)) as [[r|r] Hloop].
  - rewrite Hlen. lia.
  - apply variant_lt_fuel. rewrite Hlen. lia.
  - rewrite Hloop. eauto.
  - rewrite Hloop. eauto.
Qed.

End BalancedTermination.

(** ** Further properties of the fairness measure *)

Section MeasureFacts.
Import Fairness.
Local Open Scope Z_scope.


Lemma filter_nil_forall_inv {A} (f : A -> bool) (l : list A) :
  (forall a, In a l -> f a = false) -> filter f l = [].
Proof.
  induction l as [|a l IH]; intros Hf; simpl; [reflexivity|].
  rewrite (Hf a (or_introl eq_refl)). apply IH.
  intros a' Ha'. apply Hf. now right.
Qed.
















End MeasureFacts.

(** ** Further properties of the selection of the protected group *)

Section SelectionFacts.
Import Fairness.
Local Open Scope Z_scope.

Lemma ascii_compare_trans (a b c : Ascii.ascii) (o : comparison) :
  Ascii.compare a b = o -> Ascii.compare b c = o -> o <> Eq ->
  Ascii.compare a c = o.
Proof.
  unfold Ascii.compare. intros Hab Hbc Ho.
  destruct o; [congruence | |].
  - apply N.compare_lt_iff in Hab. apply N.compare_lt_iff in Hbc.
    apply N.compare_lt_iff. eapply N.lt_trans; eassumption.
  - apply N.compare_gt_iff in Hab. apply N.compare_gt_iff in Hbc.
    apply N.compare_gt_iff. eapply N.lt_trans; eassumption.
Qed.

Lemma string_compare_lt_trans (a b c : string) :
  String.compare a b <> Gt -> String.compare b c <> Gt ->
  String.compare a c <> Gt.
Proof.
  revert b c. induction a as [|x a IH]; intros [|y b] [|z c];
    simpl; try congruence.
  destruct (Ascii.compare x y) eqn:Hxy; try congruence;
    destruct (Ascii.compare y z) eqn:Hyz; try congruence; intros Hab Hbc.
  - apply Ascii.compare_eq_iff in Hxy, Hyz. subst.
    replace (Ascii.compare z z) with Eq.
    + now apply (IH b c).
    + symmetry. unfold Ascii.compare. apply N.compare_refl.
  - apply Ascii.compare_eq_iff in Hxy. subst. rewrite Hyz. discriminate.
  - apply Ascii.compare_eq_iff in Hyz. subst. rewrite Hxy. discriminate.
  - rewrite (ascii_compare_trans x y z Lt Hxy Hyz); discriminate.
Qed.

Lemma string_leb_trans (a b c : string) :
  String.leb a b = true -> String.leb b c = true -> String.leb a c = true.
Proof.
  unfold String.leb. intros Hab Hbc.
  pose proof (string_compare_lt_trans a b c) as H.
  destruct (String.compare a b); try discriminate;
    destruct (String.compare b c); try discriminate;
    destruct (String.compare a c); try reflexivity;
    exfalso; apply H; congruence.
Qed.

(** The head of a list sorted by a total and transitive order is in front
    of every element. *)
Lemma sorted_hd_least {A} (le : A -> A -> bool) :
  (forall a b, le a b = true \/ le b a = true) ->
  (forall a b c, le a b = true -> le b c = true -> le a c = true) ->
  forall (l : list A) (x : A) (t : list A),
    sorted le l = x :: t -> forall y, In y l -> le x y = true.
Proof.
  intros Htotal Htrans. induction l as [|a l IH]; intros x t Hs y Hy;
    [destruct Hy|].
  simpl in Hs.
  assert (Hrefl : forall z, le z z = true)
    by (intros z; destruct (Htotal z z); assumption).
  destruct (sorted le l) as [|b s] eqn:Hl.
  - simpl in Hs. injection Hs as <- <-.
    destruct Hy as [<- | Hy]; [apply Hrefl|].
    apply (sorted_In le) in Hy. rewrite Hl in Hy. destruct Hy.
  - simpl in Hs. destruct (le a b) eqn:Hab.
    + injection Hs as <- <-.
      destruct Hy as [<- | Hy]; [apply Hrefl|].
      apply (Htrans a b y Hab). apply (IH b s eq_refl y Hy).
    + injection Hs as <- _.
      destruct Hy as [<- | Hy].
      * destruct (Htotal a b); [congruence | assumption].
      * apply (IH b s eq_refl y Hy).
Qed.

Lemma sorted_nonempty {A} (le : A -> A -> bool) (l : list A) :
  l <> [] -> sorted le l <> [].
Proof.
  intros Hne Hs. apply Hne.
  apply Permutation_nil. rewrite <- Hs. apply sorted_perm.
Qed.

Lemma tie_groups_hd (g0 g1 : Hashable) (c : Z) (rest : list (Hashable * Z)) :
  In g0 (tie_groups_of ((g0, c) :: (g1, c) :: rest) c).
Proof.
  apply tie_groups_of_In. now left.
Qed.

Lemma choice_In (random : nat) (l : list Hashable) :
  l <> [] -> In (choice random l) l.
Proof.
  intros Hne. unfold choice. apply nth_In.
  apply Nat.mod_upper_bound. destruct l; [congruence | discriminate].
Qed.

Lemma sorted_unique_maximum (l1 l2 : list (Hashable * Z))
      (g : Hashable) (c : Z) :
  (forall item, In item (l1 ++ l2) -> snd item < c) ->
  sorted by_count_descending (l1 ++ (g, c) :: l2)
  = (g, c) :: sorted by_count_descending (l1 ++ l2).
Proof.
  induction l1 as [|x l1 IH]; simpl; intros Hmax.
  - destruct (sorted by_count_descending l2) as [|y s] eqn:Hs; simpl.
    + reflexivity.
    + unfold by_count_descending at 1. simpl.
      assert (Hy : snd y < c).
      { apply Hmax. apply (sorted_In by_count_descending). rewrite Hs.
        now left. }
      destruct (Z.leb_spec (snd y) c); [reflexivity | lia].
  - rewrite IH by (intros item Hin; apply Hmax; now right).
    simpl. unfold by_count_descending at 1. simpl.
    assert (Hx : snd x < c) by (apply Hmax; now left).
    destruct (Z.leb_spec c (snd x)); [lia | reflexivity].
Qed.

(** X5. When one group of the mapping has a count strictly above that of
    every other group, MAJORITY returns this group, whatever the
    tie-breaking parameter and the number drawn are. *)
Theorem majority_selects_unique_maximum :
  forall (counts : dict) (tie_breaking : option tie_breaking_param)
         (random : nat) (g : Hashable) (c : Z),
    NoDup (keys counts) ->
    In (g, c) counts ->
    (forall g' c', In (g', c') counts -> g' <> g -> c' < c) ->
    _protected_group (Strategy MAJORITY) tie_breaking random counts = inr g.
Proof.
  intros counts tie_breaking random g c Hnd Hin Hmax.
  destruct (NoDup_keys_split counts g c Hnd Hin) as (l1 & l2 & -> & Hne).
  assert (Hlt : forall item, In item (l1 ++ l2) -> snd item < c).
  { intros [g' c'] Hitem. simpl. apply (Hmax g').
    - apply in_app_iff in Hitem. apply in_app_iff.
      destruct Hitem; [now left | right; now right].
    - apply (Hne _ Hitem). }
  unfold _protected_group, sort_groups.
  rewrite (sorted_unique_maximum l1 l2 g c Hlt).
  destruct (sorted by_count_descending (l1 ++ l2)) as [|[g1 c1] s] eqn:Hs.
  - reflexivity.
  - assert (Hc1 : c1 < c).
    { apply (Hlt (g1, c1)). apply (sorted_In by_count_descending).
      rewrite Hs. now left. }
    destruct (Z.eqb_spec c c1); [lia | reflexivity].
Qed.

Lemma majority_selects_unique_maximum_witness :
  _protected_group (Strategy MAJORITY) None 0 Examples.tied_counts
  = inr "A"%string.
Proof.
  apply (majority_selects_unique_maximum
           Examples.tied_counts None 0%nat "A"%string 2).
  - repeat constructor; simpl; intuition discriminate.
  - now left.
  - intros g' c' [Heq | [Heq | [Heq | []]]] Hne; inversion Heq; subst;
      [congruence | lia | lia].
Defined.

Lemma string_geb_total (a b : string) :
  string_geb a b = true \/ string_geb b a = true.
Proof.
  unfold string_geb. destruct (String.leb_total a b); auto.
Qed.

Lemma string_geb_trans (a b c : string) :
  string_geb a b = true -> string_geb b c = true -> string_geb a c = true.
Proof.
  unfold string_geb. intros Hab Hbc. exact (string_leb_trans c b a Hbc Hab).
Qed.

(** X6. At a tie, GROUP_ASCENDING returns the tied group whose label is
    least in the order of strings and GROUP_DESCENDING the one whose label
    is greatest; both are groups of the mapping with the tied count. *)
Theorem tie_broken_by_label_order :
  forall (strategy : ProtectedGroupStrategy) (counts : dict) (random : nat)
         (g0 g1 : Hashable) (c : Z) (rest : list (Hashable * Z)),
    sort_groups strategy counts = (g0, c) :: (g1, c) :: rest ->
    exists least greatest : Hashable,
      _protected_group (Strategy strategy)
                       (Some (TieStrategy GROUP_ASCENDING)) random counts
      = inr least
      /\ _protected_group (Strategy strategy)
                          (Some (TieStrategy GROUP_DESCENDING)) random counts
         = inr greatest
      /\ In (least, c) counts /\ In (greatest, c) counts
      /\ forall g, In (g, c) counts ->
                   String.leb least g = true
                   /\ String.leb g greatest = true.
Proof.
  intros strategy counts random g0 g1 c rest Hsorted.
  pose proof (sort_groups_perm strategy counts) as Hperm.
  unfold _protected_group. rewrite Hsorted, Z.eqb_refl. cbv zeta.
  set (tied := tie_groups_of ((g0, c) :: (g1, c) :: rest) c).
  assert (Hne : tied <> []).
  { intros E. pose proof (tie_groups_hd g0 g1 c rest) as Hin.
    fold tied in Hin. rewrite E in Hin. destruct Hin. }
  assert (Htied : forall g, In g tied <-> In (g, c) counts).
  { intros g. subst tied. rewrite tie_groups_of_In, <- Hsorted.
    split; apply Permutation_in; [|symmetry]; assumption. }
  pose proof (sorted_nonempty String.leb tied Hne) as Hasc.
  pose proof (sorted_nonempty string_geb tied Hne) as Hdesc.
  destruct (sorted String.leb tied) as [|lo ta] eqn:Ea; [congruence|].
  destruct (sorted string_geb tied) as [|hi td] eqn:Ed; [congruence|].
  exists lo, hi. simpl. repeat split.
  - apply Htied. apply (sorted_In String.leb). rewrite Ea. now left.
  - apply Htied. apply (sorted_In string_geb). rewrite Ed. now left.
  - apply (sorted_hd_least String.leb String.leb_total string_leb_trans
             tied lo ta Ea). now apply Htied.
  - apply (sorted_hd_least string_geb string_geb_total string_geb_trans
             tied hi td Ed). now apply Htied.
Qed.

Lemma tie_broken_by_label_order_witness :
  exists least greatest : Hashable,
    _protected_group (Strategy MINORITY)
                     (Some (TieStrategy GROUP_ASCENDING)) 0
                     Examples.tied_counts = inr least
    /\ _protected_group (Strategy MINORITY)
                        (Some (TieStrategy GROUP_DESCENDING)) 0
                        Examples.tied_counts = inr greatest
    /\ In (least, 1) Examples.tied_counts
    /\ In (greatest, 1) Examples.tied_counts
    /\ forall g, In (g, 1) Examples.tied_counts ->
                 String.leb least g = true /\ String.leb g greatest = true.
Proof.
  apply (tie_broken_by_label_order MINORITY Examples.tied_counts 0%nat
           "B"%string "C"%string 1 [("A"%string, 2)]).
  reflexivity.
Defined.

(** X7. At a tie, a preference list selects its first label that is among
    the tied groups, and raises the error of the preference when none of
    its labels is. *)
Theorem tie_broken_by_preference :
  forall (strategy : ProtectedGroupStrategy) (counts : dict) (random : nat)
         (g0 g1 : Hashable) (c : Z) (rest : list (Hashable * Z))
         (preference : list Hashable),
    sort_groups strategy counts = (g0, c) :: (g1, c) :: rest ->
    ((forall g, In g preference -> ~ In (g, c) counts) ->
     _protected_group (Strategy strategy) (Some (Preference preference))
                      random counts
     = inl (ValueError
              (PreferenceNotApplicableError preference
                 (tie_groups_of (sort_groups strategy counts) c))))
    /\ (forall (before after : list Hashable) (g : Hashable),
          preference = before ++ g :: after ->
          In (g, c) counts ->
          (forall g', In g' before -> ~ In (g', c) counts) ->
          _protected_group (Strategy strategy) (Some (Preference preference))
                           random counts
          = inr g).
Proof.
  intros strategy counts random g0 g1 c rest preference Hsorted.
  pose proof (sort_groups_perm strategy counts) as Hperm.
  assert (Htied : forall g,
             existsb (String.eqb g)
                     (tie_groups_of (sort_groups strategy counts) c) = true
             <-> In (g, c) counts).
  { intros g. rewrite existsb_exists. split.
    - intros (g' & Hin & Heq). apply String.eqb_eq in Heq. subst g'.
      apply tie_groups_of_In in Hin.
      eapply Permutation_in; eassumption.
    - intros Hin. exists g. split; [|apply String.eqb_refl].
      apply tie_groups_of_In.
      eapply Permutation_in; [symmetry|]; eassumption. }
  unfold _protected_group. rewrite Hsorted, Z.eqb_refl. cbv zeta.
  rewrite Hsorted in Htied. split.
  - intros Hnone.
    rewrite filter_nil_forall_inv; [reflexivity|].
    intros g Hg. apply not_true_is_false. intros Hex.
    apply (Hnone g Hg). now apply Htied.
  - intros before after g -> Hin Hbefore.
    rewrite filter_app.
    rewrite (filter_nil_forall_inv _ before).
    + simpl. rewrite (proj2 (Htied g) Hin). reflexivity.
    + intros g' Hg'. apply not_true_is_false. intros Hex.
      apply (Hbefore g' Hg'). now apply Htied.
Qed.

Lemma tie_broken_by_preference_witness :
  _protected_group (Strategy MINORITY)
                   (Some (Preference ["A"; "C"; "B"]%string)) 0
                   Examples.tied_counts
  = inr "C"%string.
Proof.
  apply (proj2 (tie_broken_by_preference MINORITY Examples.tied_counts 0%nat
                  "B"%string "C"%string 1 [("A"%string, 2)]
                  ["A"; "C"; "B"]%string eq_refl)
               ["A"%string] ["B"%string] "C"%string eq_refl).
  - right. right. now left.
  - intros g' [<- | []] [H | [H | [H | []]]]; discriminate.
Defined.

End SelectionFacts.

(** ** The measure over a run *)

Section ComputeFacts.
Import Fairness.
Local Open Scope Z_scope.


Lemma head_from_keeps_query (seen : list string) (cutoff : nat)
      (run : list ScoredDoc) (d : ScoredDoc) :
  count_occ string_dec seen (query_id d) = 0%nat ->
  In d run ->
  exists d', In d' (head_from seen (S cutoff) run)
             /\ query_id d' = query_id d.
Proof.
  revert seen. induction run as [|d0 run IH]; intros seen Hseen Hin;
    [destruct Hin|].
  simpl. destruct (string_dec (query_id d0) (query_id d)) as [E|E].
  - rewrite E, Hseen. simpl. exists d0. split; [now left | assumption].
  - destruct Hin as [-> | Hin]; [congruence|].
    destruct (IH (query_id d0 :: seen)) as (d' & Hd' & Hq); [|assumption|].
    + simpl. destruct (string_dec (query_id d0) (query_id d)); congruence.
    + exists d'. split; [|assumption].
      destruct (Nat.ltb _ _); [now right | assumption].
Qed.

Lemma query_ids_In (run : list ScoredDoc) (qid : string) :
  In qid (query_ids run) <-> exists d, In d run /\ query_id d = qid.
Proof.
  unfold query_ids. rewrite sorted_In, nodup_In, in_map_iff.
  split; intros (d & H1 & H2); exists d; auto.
Qed.

Lemma query_ids_nonempty (run : list ScoredDoc) :
  run <> [] -> query_ids run <> [].
Proof.
  intros Hne E. destruct run as [|d run]; [congruence|].
  assert (Hin : In (query_id d) (query_ids (d :: run))).
  { apply query_ids_In. exists d. split; [now left | reflexivity]. }
  rewrite E in Hin. destruct Hin.
Qed.

Lemma head_from_zero (seen : list string) (run : list ScoredDoc) :
  head_from seen 0 run = [].
Proof.
  revert seen. induction run as [|d run IH]; intros seen; [reflexivity|].
  cbn [head_from].
  destruct (Nat.ltb_spec (count_occ string_dec seen (query_id d)) 0);
    [lia | apply IH].
Qed.

(** X8. [compute] yields no metric.  When the run holds a row and the
    cutoff is not 0, the generator ends with [NameError] at its first
    query, whatever the parameters, the judgments and the ranks are: the
    first statement of [_compute_query] calls [_group_counts].  For an
    empty run or the cutoff 0 there is no query, and the generator ends
    at once without an exception. *)
Theorem compute_ends_with_name_error :
  forall (protected_group : protected_group_param)
         (tie_breaking : option tie_breaking_param)
         (random : string -> nat) (cutoff : option nat)
         (groups_param : option (list Hashable))
         (qrels : list Qrel) (run : list ScoredDoc),
    compute protected_group tie_breaking random cutoff groups_param
            qrels run
    = ([], match cutoff, run with
           | Some O, _ => None
           | _, [] => None
           | _, _ :: _ => Some (NameError "defaultdict")
           end).
Proof.
  intros protected_group tie_breaking random cutoff groups_param qrels run.
  unfold compute.
  set (cut := match cutoff with
              | Some c => groupby_head c run
              | None => run
              end).
  assert (Hcut : cut = []
                 \/ exists qid qids, query_ids cut = qid :: qids).
  { destruct cut as [|d cut'] eqn:E; [now left | right].
    destruct (query_ids (d :: cut')) as [|qid qids] eqn:Eq.
    - exfalso. revert Eq. apply query_ids_nonempty. discriminate.
    - eauto. }
  assert (Hempty : cut = [] <-> match cutoff, run with
                                | Some O, _ => True
                                | _, [] => True
                                | _, _ :: _ => False
                                end).
  { subst cut. destruct cutoff as [[|c]|].
    - split; [intros _; destruct run; exact I|].
      intros _. apply head_from_zero.
    - destruct run as [|d run].
      + split; [intros _; exact I | intros _; reflexivity].
      + split; [|intros []]. intros E.
        destruct (head_from_keeps_query [] c (d :: run) d eq_refl
                    (or_introl eq_refl)) as (d' & Hd' & _).
        unfold groupby_head in E. rewrite E in Hd'. destruct Hd'.
    - destruct run as [|d run].
      + split; [intros _; exact I | intros _; reflexivity].
      + split; [discriminate | intros []]. }
  destruct Hcut as [E | (qid & qids & Eq)].
  - rewrite E. cbn [query_ids map nodup sorted fold_right yield_each].
    apply Hempty in E.
    destruct cutoff as [[|c]|]; destruct run; try reflexivity;
      contradiction.
  - rewrite Eq. cbn [yield_each].
    unfold _compute_query, _group_counts, defaultdict, unbound_name, raise.
    cbn [bind].
    assert (Hne : cut <> []).
    { intros E. rewrite E in Eq. discriminate. }
    destruct cutoff as [[|c]|]; destruct run; try reflexivity;
      exfalso; apply Hne; apply Hempty; exact I.
Qed.



(** X11. Whenever [fairness] returns a score, the score is not
    negative. *)
Theorem fairness_score_not_negative :
  forall (ranking : list ScoredDoc) (group_counts : dict)
         (protected_group : Hashable) (v : R),
    fairness ranking group_counts protected_group = inr v -> (0 <= v)%R.
Proof.
  intros ranking group_counts protected_group v Hv.
  unfold fairness in Hv.
  match type of Hv with
  | bind (mapM ?f ?l) _ = _ => destruct (mapM f l) as [e|metrics] eqn:Hm
  end; simpl in Hv; [discriminate|].
  injection Hv as <-. apply sum_nonneg_from; [lra|].
  eapply mapM_Forall; [|exact Hm].
  intros a b. apply intermediate_metric_nonneg.
Qed.

Lemma fairness_score_not_negative_witness :
  fairness Examples.single_ranking Examples.single_counts
           "A"%string = inr (1 / 2)%R
  /\ (0 <= 1 / 2)%R.
Proof.
  assert (Hv : fairness Examples.single_ranking
                        Examples.single_counts "A"%string
               = inr (1 / 2)%R).
  { unfold fairness. simpl. unfold intermediate_metric, S_Plus_in. simpl.
    unfold ret. f_equal. unfold sum. simpl. rewrite log2_2.
    rewrite (Rabs_pos_eq (1 / 2)) by lra.
    rewrite (Rabs_pos_eq (1 / 1)) by lra.
    replace (1 / 2 - 1 / 1)%R with (- (1 / 2))%R by lra.
    rewrite Rabs_Ropp, (Rabs_pos_eq (1 / 2)) by lra. lra. }
  split; [exact Hv|].
  exact (fairness_score_not_negative _ _ _ _ Hv).
Defined.

End ComputeFacts.


(** ** Further properties of AlternatingStanceReranker *)

Section AlternatingOrder.
Import Reranker Reranker.Alternating.

Lemma drop_unique (index : Z) (r : row) (df : DataFrame) :
  NoDup (map fst df) -> In (index, r) df ->
  Permutation df ((index, r) :: drop index df)
  /\ NoDup (map fst (drop index df)).
Proof.
  unfold drop. induction df as [|[i x] df IH]; intros Hnd Hin;
    [destruct Hin|].
  simpl in Hnd. apply NoDup_cons_iff in Hnd as [Hfresh Hnd].
  simpl. destruct (Z.eqb_spec i index) as [->|Hne]; simpl.
  - destruct Hin as [Heq | Hin].
    + injection Heq as ->.
      assert (Hsame : filter (fun item : Z * row =>
                                negb (fst item =? index)%Z) df = df).
      { clear IH Hnd. induction df as [|[j y] df IHdf]; simpl;
          [reflexivity|].
        destruct (Z.eqb_spec j index) as [->|_]; simpl.
        - exfalso. apply Hfresh. now left.
        - f_equal. apply IHdf. intros H. apply Hfresh. now right. }
      rewrite Hsame. split; [reflexivity | assumption].
    + exfalso. apply Hfresh. apply in_map_iff. exists (index, r). auto.
  - destruct Hin as [Heq | Hin]; [congruence|].
    destruct (IH Hnd Hin) as [Hperm Hnd']. split.
    + rewrite Hperm at 1. apply perm_swap.
    + simpl. apply NoDup_cons; [|assumption].
      intros H. apply Hfresh.
      apply in_map_iff in H as (item & <- & Hitem).
      apply filter_In in Hitem as [Hitem _]. now apply in_map.
Qed.

Lemma step_keeps_rows (st st' : state) (ranking0 : DataFrame) :
  NoDup (map fst (ranking st)) ->
  Permutation (new_rows st ++ ranking st) ranking0 ->
  step st = Some st' ->
  NoDup (map fst (ranking st'))
  /\ Permutation (new_rows st' ++ ranking st') ranking0.
Proof.
  intros Hnd Hperm Hstep.
  apply step_cases in Hstep
    as [(_ & -> & _) | (index & document & Hhd & ->)]; simpl.
  - auto.
  - assert (Hin : In (index, document) (ranking st)).
    { apply candidates_incl. destruct (candidates st); [discriminate|].
      injection Hhd as ->. now left. }
    destruct (drop_unique index document (ranking st) Hnd Hin)
      as [Hsplit Hnd'].
    split; [assumption|].
    rewrite <- Hperm, <- app_assoc. apply Permutation_app_head.
    simpl. symmetry. assumption.
Qed.

Lemma loop_keeps_rows (fuel : nat) (st fin : state) (ranking0 : DataFrame) :
  NoDup (map fst (ranking st)) ->
  Permutation (new_rows st ++ ranking st) ranking0 ->
  loop fuel st = Some fin ->
  Permutation (new_rows fin ++ ranking fin) ranking0.
Proof.
  revert st. induction fuel as [|fuel IH]; intros st Hnd Hperm Hloop;
    [discriminate|].
  simpl in Hloop. destruct (step st) as [st'|] eqn:Hstep.
  - destruct (step_keeps_rows st st' ranking0 Hnd Hperm Hstep).
    now apply (IH st').
  - injection Hloop as <-. assumption.
Qed.

(** X12. For a ranking whose index labels are distinct the re-ranker
    returns the rows of the input in a new order, none lost and none
    twice, each with its index label, and stamps the scores
    [n, n-1, .., 1] on them in that order. *)
Theorem alternating_reorders_rows :
  forall ranking : DataFrame,
    NoDup (map fst ranking) ->
    exists placed : DataFrame,
      Permutation placed ranking
      /\ _transform_query ranking = Some (reset_score placed)
      /\ length (reset_score placed) = length ranking
      /\ forall (j : nat) (index : Z) (r : row),
           nth_error placed j = Some (index, r) ->
           nth_error (reset_score placed) j
           = Some (index,
                   set_score r (of_int (Z.of_nat (length ranking)
                                        - Z.of_nat j))).
Proof.
  intros ranking Hnd.
  destruct (loop_returns (2 * length ranking + 1) (mkState ranking [] NaN))
    as (fin & Hloop & Hempty).
  { unfold measure. simpl. lia. }
  assert (Hperm : Permutation (new_rows fin) ranking).
  { pose proof (loop_keeps_rows _ (mkState ranking [] NaN) fin ranking
                  Hnd (Permutation_refl _) Hloop) as H.
    rewrite Hempty, app_nil_r in H. assumption. }
  exists (new_rows fin). split; [assumption|]. split.
  - unfold _transform_query. now rewrite Hloop.
  - rewrite reset_score_length. split.
    + now apply Permutation_length.
    + intros j index r Hj. rewrite (reset_score_nth _ _ _ _ Hj).
      now rewrite (Permutation_length Hperm).
Qed.

Lemma alternating_reorders_rows_witness :
  exists placed : DataFrame,
    Permutation placed (reset_index Examples.three_pro_a)
    /\ _transform_query (reset_index Examples.three_pro_a)
       = Some (reset_score placed)
    /\ length (reset_score placed)
       = length (reset_index Examples.three_pro_a)
    /\ forall (j : nat) (index : Z) (r : row),
         nth_error placed j = Some (index, r) ->
         nth_error (reset_score placed) j
         = Some (index,
                 set_score r
                   (of_int (Z.of_nat
                              (length (reset_index Examples.three_pro_a))
                            - Z.of_nat j))).
Proof.
  apply alternating_reorders_rows.
  repeat constructor; simpl; intuition discriminate.
Defined.

(** X13. The first row of the input is the first row of the output: the
    loop starts without a last stance and takes the first row whatever
    its stance is. *)
Theorem alternating_keeps_first_row :
  forall (x : Z * row) (rest : DataFrame),
  exists (out : DataFrame) (s : float),
    _transform_query (x :: rest) = Some out
    /\ hd_error out = Some (fst x, set_score (snd x) s).
Proof.
  intros [index r] rest.
  destruct (_transform_query_returns ((index, r) :: rest))
    as (fin & Hloop & Hout).
  assert (Hfirst : exists suffix, new_rows fin = (index, r) :: suffix).
  { replace (2 * length ((index, r) :: rest) + 1)%nat
      with (S (2 * length ((index, r) :: rest))) in Hloop by lia.
    cbn [loop step ranking candidates last_stance fgtb fltb fzero of_int
         new_rows app] in Hloop.
    apply loop_appends in Hloop as [suffix Hfin]. simpl in Hfin. eauto. }
  destruct Hfirst as [suffix Hfin].
  exists (reset_score (new_rows fin)),
         (of_int (Z.of_nat (length (new_rows fin)) - Z.of_nat 0)).
  split; [assumption|].
  assert (H0 : nth_error (new_rows fin) 0 = Some (index, r))
    by (rewrite Hfin; reflexivity).
  apply reset_score_nth in H0.
  destruct (reset_score (new_rows fin)); [discriminate|].
  simpl in *. assumption.
Qed.

Lemma drop_fresh (index : Z) (df : DataFrame) :
  ~ In index (map fst df) -> drop index df = df.
Proof.
  unfold drop. induction df as [|[j y] df IH]; simpl; intros Hfresh;
    [reflexivity|].
  destruct (Z.eqb_spec j index) as [->|_]; simpl.
  - exfalso. apply Hfresh. now left.
  - f_equal. apply IH. intros H. apply Hfresh. now right.
Qed.

Lemma loop_without_polarity (l : DataFrame) :
  NoDup (map fst l) ->
  (forall item, In item l ->
                fgtb (stance_value (snd item)) fzero = false
                /\ fltb (stance_value (snd item)) fzero = false) ->
  forall (fuel : nat) (acc : DataFrame) (last : float),
    (length l < fuel)%nat ->
    fgtb last fzero = false -> fltb last fzero = false ->
    exists fin, loop fuel (mkState l acc last) = Some fin
                /\ new_rows fin = acc ++ l.
Proof.
  induction l as [|[index r] l IH]; intros Hnd Hneutral fuel acc last Hfuel
    Hgt Hlt.
  - destruct fuel; [simpl in Hfuel; lia|]. simpl.
    eexists. split; [reflexivity|]. simpl. now rewrite app_nil_r.
  - destruct fuel; [simpl in Hfuel; lia|].
    simpl in Hnd. apply NoDup_cons_iff in Hnd as [Hfresh Hnd].
    destruct (Hneutral (index, r) (or_introl eq_refl)) as [Hr1 Hr2].
    simpl in Hr1, Hr2.
    assert (Hstep : step (mkState ((index, r) :: l) acc last)
                    = Some (mkState l (acc ++ [(index, r)])
                                    (stance_value r))).
    { unfold step, candidates. cbn [ranking last_stance new_rows].
      rewrite Hgt, Hlt. f_equal. f_equal.
      unfold drop. simpl. rewrite Z.eqb_refl. simpl.
      now apply drop_fresh. }
    cbn [loop]. rewrite Hstep.
    destruct (IH Hnd (fun item H => Hneutral item (or_intror H))
                 fuel (acc ++ [(index, r)]) (stance_value r))
      as (fin & Hloop & Hrows); try assumption.
    + simpl in Hfuel. lia.
    + exists fin. split; [assumption|].
      rewrite Hrows, <- app_assoc. reflexivity.
Qed.

(** X14. A ranking without a row pro A or pro B (every stance value is 0
    or absent) keeps its order: the re-ranker only stamps the scores
    [n, .., 1] on it (index labels distinct). *)
Theorem alternating_keeps_order_without_polarity :
  forall ranking : DataFrame,
    NoDup (map fst ranking) ->
    (forall item, In item ranking ->
                  fgtb (stance_value (snd item)) fzero = false
                  /\ fltb (stance_value (snd item)) fzero = false) ->
    _transform_query ranking = Some (reset_score ranking).
Proof.
  intros ranking Hnd Hneutral. unfold _transform_query.
  destruct (loop_without_polarity ranking Hnd Hneutral
              (2 * length ranking + 1) [] NaN)
    as (fin & -> & Hrows); try reflexivity; [lia|].
  now rewrite Hrows.
Qed.

Lemma alternating_keeps_order_without_polarity_witness :
  _transform_query Examples.equal_scores
  = Some (reset_score Examples.equal_scores).
Proof.
  apply alternating_keeps_order_without_polarity.
  - repeat constructor; simpl; intuition discriminate.
  - intros item [<- | [<- | []]]; split; reflexivity.
Defined.

End AlternatingOrder.


(** ** Further properties of BalancedStanceReranker *)

Section BalancedExit.
Import Reranker Reranker.Balanced.
Local Open Scope Z_scope.

Lemma step_balanced_iff (k : Z) (ranking : list row) :
  step k ranking = Balanced <-> imbalance k ranking <= 1.
Proof.
  unfold step, imbalance.
  destruct (Z.gtb_spec (Z.abs (count_pro_a k ranking - count_pro_b k ranking)) 1)
    as [Himb|Himb].
  - split; [|lia]. intros H.
    destruct (_ >? 0);
      destruct (rev _) as [|? ?]; try discriminate;
      destruct (map fst _) as [|? ?]; discriminate.
  - split; [intros _; assumption | reflexivity].
Qed.

Lemma step_return_imbalanced (k : Z) (ranking : list row) :
  step k ranking = Return -> 1 < imbalance k ranking.
Proof.
  intros H. destruct (Z.le_gt_cases (imbalance k ranking) 1) as [Hle|];
    [|lia].
  apply step_balanced_iff in Hle. congruence.
Qed.

Lemma step_permutation (k : Z) (ranking ranking' : list row) :
  0 <= k ->
  step k ranking = Continue ranking' -> Permutation ranking ranking'.
Proof.
  intros Hk0. unfold step.
  destruct (Z.gtb_spec (Z.abs (count_pro_a k ranking - count_pro_b k ranking)) 1)
    as [Himb|]; [|discriminate].
  assert (Hk : 1 <= k).
  { destruct (Z.eq_dec k 0) as [E|]; [|lia]. exfalso. revert Himb.
    rewrite E. unfold count_pro_a, count_pro_b, iloc_to. simpl. lia. }
  destruct (_ >? 0).
  - destruct (rev (map fst (filter (fun item => pro_a (snd item))
                     (iloc_to (k - 1) (reset_index ranking)))))
      as [|index_a ta] eqn:Ea; [discriminate|].
    destruct (map fst (filter (fun item => pro_b (snd item))
                     (iloc_from k (reset_index ranking))))
      as [|index_b tb] eqn:Eb; [discriminate|].
    intros Heq. injection Heq as <-.
    apply (move_counts k ranking index_a index_b pro_a pro_b Hk).
    + apply in_rev. rewrite Ea. now left.
    + rewrite Eb. now left.
  - destruct (rev (map fst (filter (fun item => pro_b (snd item))
                     (iloc_to (k - 1) (reset_index ranking)))))
      as [|index_b tb] eqn:Eb; [discriminate|].
    destruct (map fst (filter (fun item => pro_a (snd item))
                     (iloc_from k (reset_index ranking))))
      as [|index_a ta] eqn:Ea; [discriminate|].
    intros Heq. injection Heq as <-.
    apply (move_counts k ranking index_b index_a pro_b pro_a Hk).
    + apply in_rev. rewrite Eb. now left.
    + rewrite Ea. now left.
Qed.

Lemma loop_exit (fuel : nat) (k : Z) (ranking0 : list row) (e : exit) :
  0 <= k ->
  loop fuel k ranking0 = Some e ->
  match e with
  | Returned r => Permutation ranking0 r /\ step k r = Return
  | Fell_through r => Permutation ranking0 r /\ step k r = Balanced
  end.
Proof.
  intros Hk. revert ranking0.
  induction fuel as [|fuel IH]; intros ranking0 Hloop; [discriminate|].
  simpl in Hloop. destruct (step k ranking0) as [| |ranking'] eqn:Hstep.
  - injection Hloop as <-. auto.
  - injection Hloop as <-. auto.
  - apply step_permutation in Hstep; [|assumption].
    specialize (IH ranking' Hloop).
    destruct e; destruct IH as [Hperm Hs]; split; try assumption;
      etransitivity; eassumption.
Qed.

(** X15. For every [k] and every ranking the re-ranker returns, and what
    it returns holds the rows of the input in some order under the index
    labels [0, 1, ..]: either the top-k window of that order is balanced
    (the pro A and pro B counts differ by at most 1) and the scores are
    stamped [n, .., 1], or the window is still imbalanced (the loop was
    left by its [return ranking]) and every row keeps the score it came
    with. *)
Theorem balanced_returns_balanced_or_unstamped :
  forall (self_k : nat) (ranking : DataFrame),
    let k := Z.min (Z.of_nat self_k) (Z.of_nat (length ranking)) in
    exists (r : list row) (out : DataFrame),
      _transform_query self_k ranking = Some out
      /\ Permutation (rows ranking) r
      /\ ((imbalance k r <= 1 /\ out = reset_score (reset_index r))
          \/ (1 < imbalance k r /\ out = reset_index r)).
Proof.
  intros self_k ranking k.
  assert (Hlen : length (rows ranking) = length ranking)
    by (unfold rows; apply length_map).
  assert (Hk : 0 <= k <= Z.of_nat (length (rows ranking)))
    by (subst k; rewrite Hlen; lia).
  destruct (loop_returns_balanced (fuel_for (rows ranking)) k
              (rows ranking) Hk (variant_lt_fuel k (rows ranking) Hk))
    as [e Hloop].
  pose proof (loop_exit _ _ _ _ (proj1 Hk) Hloop) as Hexit.
  unfold _transform_query. fold k. rewrite Hloop.
  destruct e as [r|r]; destruct Hexit as [Hperm Hstep]; exists r.
  - exists (reset_index r). split; [reflexivity|]. split; [assumption|].
    right. split; [now apply step_return_imbalanced | reflexivity].
  - exists (reset_score (reset_index r)). split; [reflexivity|].
    split; [assumption|].
    left. split; [now apply step_balanced_iff | reflexivity].
Qed.

(** X16. When the top-k window of the input is already balanced, the
    re-ranker keeps the order of the rows: it resets the index labels
    and stamps the scores [n, .., 1]. *)
Theorem balanced_keeps_balanced_ranking :
  forall (self_k : nat) (ranking : DataFrame),
    imbalance (Z.min (Z.of_nat self_k) (Z.of_nat (length ranking)))
              (rows ranking) <= 1 ->
    _transform_query self_k ranking
    = Some (reset_score (reset_index (rows ranking))).
Proof.
  intros self_k ranking Himb. apply step_balanced_iff in Himb.
  unfold _transform_query, fuel_for. rewrite Nat.add_1_r.
  cbn [loop]. now rewrite Himb.
Qed.

Lemma balanced_keeps_balanced_ranking_witness :
  _transform_query 3 (reset_index Examples.three_pro_a_moved)
  = Some (reset_score
            (reset_index (rows (reset_index Examples.three_pro_a_moved)))).
Proof.
  apply balanced_keeps_balanced_ranking. vm_compute. discriminate.
Defined.

(** X17. When the top-k window is imbalanced and no row behind the window
    is of the polarity in deficit, the re-ranker returns the rows in the
    order and with the scores of the input; only the index labels are
    reset. *)
Theorem balanced_gives_up_without_candidate :
  forall (self_k : nat) (ranking : DataFrame),
    let k := Z.min (Z.of_nat self_k) (Z.of_nat (length ranking)) in
    1 < imbalance k (rows ranking) ->
    (forall r, In r (iloc_from k (rows ranking)) ->
               under_of k (rows ranking) r = false) ->
    _transform_query self_k ranking = Some (reset_index (rows ranking)).
Proof.
  intros self_k ranking k Himb Hnone.
  assert (Hstep : step k (rows ranking) = Return).
  { unfold step. unfold imbalance in Himb. unfold under_of in Hnone.
    destruct (Z.gtb_spec (Z.abs (count_pro_a k (rows ranking)
                                 - count_pro_b k (rows ranking))) 1);
      [|lia].
    assert (Hempty : forall f,
      (forall r, In r (iloc_from k (rows ranking)) -> f r = false) ->
      map fst (filter (fun item : Z * row => f (snd item))
                      (iloc_from k (reset_index (rows ranking)))) = []).
    { intros f Hf.
      destruct (map fst (filter (fun item : Z * row => f (snd item))
                  (iloc_from k (reset_index (rows ranking)))))
        as [|i t] eqn:E; [reflexivity|]. exfalso.
      assert (Hin : In i (map fst (filter (fun item : Z * row =>
                                             f (snd item))
                    (iloc_from k (reset_index (rows ranking))))))
        by (rewrite E; now left).
      unfold iloc_from in Hin.
      apply tail_candidate in Hin as (j & y & _ & Hj & Hy & Hfy).
      assert (Hy' : In y (iloc_from k (rows ranking))).
      { unfold iloc_from. apply (nth_error_In _ (j - Z.to_nat k)).
        rewrite nth_error_skipn. rewrite <- Hy. f_equal. lia. }
      rewrite (Hf y Hy') in Hfy. discriminate. }
    destruct (_ >? 0).
    - rewrite (Hempty pro_b Hnone).
      destruct (rev _); reflexivity.
    - rewrite (Hempty pro_a Hnone).
      destruct (rev _); reflexivity. }
  unfold _transform_query, fuel_for. fold k. rewrite Nat.add_1_r.
  cbn [loop]. now rewrite Hstep.
Qed.

Lemma balanced_gives_up_without_candidate_witness :
  _transform_query 2 (reset_index Examples.only_pro_a)
  = Some (reset_index (rows (reset_index Examples.only_pro_a))).
Proof.
  apply balanced_gives_up_without_candidate.
  - vm_compute. reflexivity.
  - intros r [<- | []]. reflexivity.
Defined.

End BalancedExit.


(** ** Further properties of the score normalization and of
    InverseStanceGainReranker *)

Section NormalizeFacts.
Import Reranker.

Lemma fold_min_spec (l : list float) (a : Q) :
  Forall is_finite l ->
  exists m : Q,
    fold_left (fun m y => if fleb m y then m else y) l (Finite a) = Finite m
    /\ In (Finite m) (Finite a :: l)
    /\ forall q, In (Finite q) (Finite a :: l) -> Qle m q.
Proof.
  revert a. induction l as [|y l IH]; intros a Hl.
  - exists a. simpl. repeat split; auto.
    intros q [H | []]. injection H as <-. apply Qle_refl.
  - inversion Hl as [|? ? [b ->] Hl']; subst. simpl.
    destruct (Qle_bool a b) eqn:Hab.
    + destruct (IH a Hl') as (m & Hfold & Hin & Hle).
      exists m. split; [assumption|]. split.
      * destruct Hin as [H | H]; [now left | right; now right].
      * intros q [H | [H | H]].
        -- apply Hle. now left.
        -- injection H as <-. apply Qle_bool_iff in Hab.
           eapply Qle_trans; [|exact Hab]. apply Hle. now left.
        -- apply Hle. now right.
    + destruct (IH b Hl') as (m & Hfold & Hin & Hle).
      exists m. split; [assumption|]. split.
      * destruct Hin as [H | H]; [right; now left | right; now right].
      * intros q [H | [H | H]].
        -- injection H as <-.
           assert (Hba : Qle b a).
           { destruct (Qlt_le_dec b a) as [Hlt | Hge].
             - now apply Qlt_le_weak.
             - apply Qle_bool_iff in Hge. congruence. }
           eapply Qle_trans; [|exact Hba]. apply Hle. now left.
        -- apply Hle. now left.
        -- apply Hle. now right.
Qed.

Lemma fold_max_spec (l : list float) (a : Q) :
  Forall is_finite l ->
  exists m : Q,
    fold_left (fun m y => if fleb y m then m else y) l (Finite a) = Finite m
    /\ In (Finite m) (Finite a :: l)
    /\ forall q, In (Finite q) (Finite a :: l) -> Qle q m.
Proof.
  revert a. induction l as [|y l IH]; intros a Hl.
  - exists a. simpl. repeat split; auto.
    intros q [H | []]. injection H as <-. apply Qle_refl.
  - inversion Hl as [|? ? [b ->] Hl']; subst. simpl.
    destruct (Qle_bool b a) eqn:Hab.
    + destruct (IH a Hl') as (m & Hfold & Hin & Hle).
      exists m. split; [assumption|]. split.
      * destruct Hin as [H | H]; [now left | right; now right].
      * intros q [H | [H | H]].
        -- apply Hle. now left.
        -- injection H as <-. apply Qle_bool_iff in Hab.
           eapply Qle_trans; [exact Hab|]. apply Hle. now left.
        -- apply Hle. now right.
    + destruct (IH b Hl') as (m & Hfold & Hin & Hle).
      exists m. split; [assumption|]. split.
      * destruct Hin as [H | H]; [right; now left | right; now right].
      * intros q [H | [H | H]].
        -- injection H as <-.
           assert (Hba : Qle a b).
           { destruct (Qlt_le_dec a b) as [Hlt | Hge].
             - now apply Qlt_le_weak.
             - apply Qle_bool_iff in Hge. congruence. }
           eapply Qle_trans; [exact Hba|]. apply Hle. now left.
        -- apply Hle. now left.
        -- apply Hle. now right.
Qed.

Lemma filter_finite (l : list float) :
  Forall is_finite l -> filter (fun x => negb (isnan x)) l = l.
Proof.
  induction 1 as [|x l [q ->] _ IH]; simpl; [reflexivity|]. now rewrite IH.
Qed.

Lemma series_min_spec (l : list float) :
  l <> [] -> Forall is_finite l ->
  exists m : Q, series_min l = Finite m /\ In (Finite m) l
                /\ forall q, In (Finite q) l -> Qle m q.
Proof.
  intros Hne Hl. unfold series_min. rewrite (filter_finite l Hl).
  destruct l as [|x l]; [congruence|].
  inversion Hl as [|? ? [a ->] Hl']; subst. now apply fold_min_spec.
Qed.

Lemma series_max_spec (l : list float) :
  l <> [] -> Forall is_finite l ->
  exists m : Q, series_max l = Finite m /\ In (Finite m) l
                /\ forall q, In (Finite q) l -> Qle q m.
Proof.
  intros Hne Hl. unfold series_max. rewrite (filter_finite l Hl).
  destruct l as [|x l]; [congruence|].
  inversion Hl as [|? ? [a ->] Hl']; subst. now apply fold_max_spec.
Qed.

(** The quotient that the normalization computes for one score. *)
Lemma normalized_value (q lo hi : Q) :
  Qle lo q -> Qle q hi -> Qlt lo hi ->
  exists v : Q,
    fdiv (fsub (Finite q) (Finite lo)) (fsub (Finite hi) (Finite lo))
    = Finite v
    /\ Qeq v ((q - lo) / (hi - lo)) /\ Qle 0 v /\ Qle v 1.
Proof.
  intros Hlo Hhi Hlt. unfold fsub, fneg, fadd, fdiv.
  assert (Hden : Qeq (Qred (hi + Qred (- lo))) (hi - lo))
    by (rewrite !Qred_correct; reflexivity).
  assert (Hnum : Qeq (Qred (q + Qred (- lo))) (q - lo))
    by (rewrite !Qred_correct; reflexivity).
  assert (Hpos : Qlt 0 (hi - lo)) by Lqa.lra.
  destruct (Qeq_bool (Qred (hi + Qred (- lo))) 0) eqn:Hz.
  - apply Qeq_bool_iff in Hz. rewrite Hden in Hz. Lqa.lra.
  - eexists. split; [reflexivity|].
    assert (Hv : Qeq (Qred (Qred (q + Qred (- lo))
                            / Qred (hi + Qred (- lo))))
                     ((q - lo) / (hi - lo))).
    { rewrite Qred_correct, Hnum, Hden. reflexivity. }
    split; [exact Hv|]. rewrite Hv. split.
    + apply Qle_shift_div_l; [assumption | Lqa.lra].
    + apply Qle_shift_div_r; [assumption | Lqa.lra].
Qed.

(** X18. When all scores of a frame are numbers of absolute value below
    [2^1023] (so that no difference of two scores overflows) and two of
    them differ, every score of the frame that the normalization returns
    is a number of [[0,1]]: the score [s] becomes
    [(s - min) / (max - min)]. *)
Theorem normalized_scores_in_unit_interval :
  forall (df : DataFrame) (inplace : bool) (p q : Q),
    Forall (is_below (inject_Z (2 ^ 1023))) (scores df) ->
    In (Finite p) (scores df) -> In (Finite q) (scores df) ->
    ~ Qeq p q ->
    exists lo hi : Q,
      series_min (scores df) = Finite lo
      /\ series_max (scores df) = Finite hi
      /\ Forall2 (fun given normal =>
                    exists s v : Q,
                      given = Finite s /\ normal = Finite v
                      /\ Qeq v ((s - lo) / (hi - lo))
                      /\ Qle 0 v /\ Qle v 1)
                 (scores df)
                 (scores (InverseStanceGain.normalized df inplace)).
Proof.
  intros df inplace p q Hbelow Hp Hq Hpq.
  assert (Hfin : Forall is_finite (scores df)).
  { eapply Forall_impl; [|exact Hbelow].
    intros x (s & -> & _). now exists s. }
  assert (Hne : scores df <> []) by (intros E; rewrite E in Hp; destruct Hp).
  destruct (series_min_spec _ Hne Hfin) as (lo & Hmin & _ & Hlo).
  destruct (series_max_spec _ Hne Hfin) as (hi & Hmax & _ & Hhi).
  assert (Hlt : Qlt lo hi).
  { pose proof (Hlo p Hp). pose proof (Hlo q Hq).
    pose proof (Hhi p Hp). pose proof (Hhi q Hq).
    destruct (Qlt_le_dec lo hi) as [|Hge]; [assumption|].
    exfalso. apply Hpq. Lqa.lra. }
  exists lo, hi. split; [assumption|]. split; [assumption|].
  rewrite normalized_eq, Hmin, Hmax.
  rewrite scores_assign_score
    by (rewrite length_map; unfold scores; apply length_map).
  assert (Hall : forall l, (forall s, In s l -> In s (scores df)) ->
    Forall2 (fun given normal =>
               exists s v : Q,
                 given = Finite s /\ normal = Finite v
                 /\ Qeq v ((s - lo) / (hi - lo)) /\ Qle 0 v /\ Qle v 1)
            l
            (map (fun s => fdiv (fsub s (Finite lo))
                                (fsub (Finite hi) (Finite lo))) l)).
  { induction l as [|x l IH]; intros Hsub; simpl; constructor.
    - assert (Hx : In x (scores df)) by (apply Hsub; now left).
      rewrite Forall_forall in Hfin. destruct (Hfin x Hx) as [s ->].
      destruct (normalized_value s lo hi (Hlo s Hx) (Hhi s Hx) Hlt)
        as (v & Hv & Heq & H0 & H1).
      exists s, v. auto.
    - apply IH. intros s Hs. apply Hsub. now right. }
  apply Hall. auto.
Qed.

Lemma normalized_scores_in_unit_interval_witness :
  exists lo hi : Q,
    series_min (scores Examples.boost_ranking) = Finite lo
    /\ series_max (scores Examples.boost_ranking) = Finite hi
    /\ Forall2 (fun given normal =>
                  exists s v : Q,
                    given = Finite s /\ normal = Finite v
                    /\ Qeq v ((s - lo) / (hi - lo))
                    /\ Qle 0 v /\ Qle v 1)
               (scores Examples.boost_ranking)
               (scores (InverseStanceGain.normalized
                          Examples.boost_ranking true)).
Proof.
  apply (normalized_scores_in_unit_interval
           Examples.boost_ranking true (4 # 1)%Q (3 # 1)%Q).
  - repeat constructor; eexists; (split; [reflexivity|]);
      split; vm_compute; reflexivity.
  - now left.
  - right. now left.
  - discriminate.
Defined.

Lemma Qred_integer (z : Z) : Qred (z # 1)%Q = (z # 1)%Q.
Proof.
  unfold Qred.
  pose proof (Z.ggcd_gcd z 1) as Hg.
  pose proof (Z.ggcd_correct_divisors z 1) as Hd.
  destruct (Z.ggcd z 1) as [g [aa bb]]. simpl in Hg, Hd.
  rewrite Z.gcd_1_r in Hg. subst g. destruct Hd as [Ha Hb].
  rewrite Z.mul_1_l in Ha, Hb. subst aa bb. reflexivity.
Qed.

Lemma fadd_integers (a b : Z) :
  fadd (of_int a) (of_int b) = of_int (a + b).
Proof.
  unfold fadd, of_int, inject_Z, Qplus. cbn [Qnum Qden Pos.mul].
  rewrite !Z.mul_1_r. now rewrite Qred_integer.
Qed.

Lemma gain_from (labels : list string) (stance : string) (acc : Z) :
  fold_left fadd
    (map (fun l => fdiv (if String.eqb l stance then fone else fzero) fone)
         labels)
    (of_int acc)
  = of_int (acc + Z.of_nat (count_occ string_dec labels stance)).
Proof.
  revert acc. induction labels as [|l labels IH]; intros acc.
  - simpl. now rewrite Z.add_0_r.
  - cbn [map fold_left count_occ].
    destruct (String.eqb_spec l stance) as [->|Hne].
    + destruct (string_dec stance stance); [|congruence].
      change (fdiv fone fone) with (of_int 1).
      rewrite fadd_integers, IH. f_equal. lia.
    + destruct (string_dec l stance); [congruence|].
      change (fdiv fzero fone) with (of_int 0).
      rewrite fadd_integers, IH. f_equal. lia.
Qed.

(** X19. The gain of a stance is the number of rows that carry it: no
    position discounts an occurrence. *)
Theorem discounted_gain_counts_rows :
  forall (ranking_stance : list string) (stance : string),
    InverseStanceGain._discounted_gain ranking_stance stance
    = of_int (Z.of_nat (count_occ string_dec ranking_stance stance)).
Proof.
  intros ranking_stance stance. unfold InverseStanceGain._discounted_gain.
  change fzero with (of_int 0). now rewrite gain_from.
Qed.

(** X23. [_normalize_scores] never writes to a frame that exists when it
    is called, whatever [inplace] is: the frame it changes and returns is
    one it has made itself. *)
Theorem normalize_scores_writes_fresh_frame :
  forall (h : store) (ranking : ref) (inplace : bool),
    (length h <= snd (_normalize_scores h ranking inplace))%nat
    /\ forall r : ref,
         (r < length h)%nat ->
         deref (fst (_normalize_scores h ranking inplace)) r = deref h r.
Proof.
  intros h ranking inplace. unfold _normalize_scores, copy.
  destruct inplace; simpl.
  - split; [lia|]. intros r Hr.
    rewrite deref_write_other by lia. now apply deref_app.
  - rewrite length_app. simpl. split; [lia|]. intros r Hr.
    rewrite deref_write_other by lia.
    rewrite deref_app by (rewrite length_app; simpl; lia).
    now apply deref_app.
Qed.

(** X24. When the scores of a non-empty frame are all the same number
    (so for every frame of one row with a number as score), every score
    of the frame that the normalization returns is [nan]. *)
Theorem normalized_equal_scores_are_nan :
  forall (df : DataFrame) (s : Q) (inplace : bool),
    df <> [] ->
    Forall (is_number s) (scores df) ->
    length (InverseStanceGain.normalized df inplace) = length df
    /\ Forall (fun x => x = NaN)
              (scores (InverseStanceGain.normalized df inplace)).
Proof.
  intros df s inplace Hne Hall. split.
  - rewrite normalized_eq. unfold assign_score, scores.
    rewrite length_map, length_combine, !length_map. lia.
  - rewrite (normalized_equal_scores df s inplace Hne Hall).
    apply Forall_forall. intros x Hx.
    apply in_map_iff in Hx as (y & <- & _). reflexivity.
Qed.

Lemma normalized_equal_scores_are_nan_witness :
  length (InverseStanceGain.normalized Examples.equal_scores true)
  = length Examples.equal_scores
  /\ Forall (fun x => x = NaN)
            (scores (InverseStanceGain.normalized Examples.equal_scores true)).
Proof.
  apply (normalized_equal_scores_are_nan Examples.equal_scores (1 # 2)%Q true).
  - discriminate.
  - repeat constructor; eexists; (split; [reflexivity|]); reflexivity.
Defined.

End NormalizeFacts.

(** ** The score of the first rows of a ranking *)

Section FirstRowsFacts.
Import Fairness.
Local Open Scope Z_scope.

Lemma firstn_incl_In {A} (c : nat) (l : list A) (x : A) :
  In x (firstn c l) -> In x l.
Proof.
  intros H. rewrite <- (firstn_skipn c l). apply in_or_app. now left.
Qed.

Lemma sorted_app_lt (l1 l2 : list ScoredDoc) :
  StronglySorted (fun a b => rank a < rank b) (l1 ++ l2) ->
  forall a b, In a l1 -> In b l2 -> rank a < rank b.
Proof.
  induction l1 as [|x l1 IH]; intros Hs a b Ha Hb; [destruct Ha|].
  simpl in Hs. inversion Hs as [|? ? Hs' Hall]; subst.
  destruct Ha as [<- | Ha].
  - rewrite Forall_forall in Hall. apply Hall, in_or_app. now right.
  - now apply IH.
Qed.

(** The rows behind the first [c] carry greater ranks, so the prefix that
    [fairness] forms for one of the first [c] rows is the same with and
    without them. *)
Lemma intermediate_metric_firstn (c : nat) (ranking : list ScoredDoc)
      (counts : dict) (g : Hashable) (N : Z) (d : ScoredDoc) :
  StronglySorted (fun a b => rank a < rank b) ranking ->
  In d (firstn c ranking) ->
  intermediate_metric (firstn c ranking) counts g N (rank d)
  = intermediate_metric ranking counts g N (rank d).
Proof.
  intros Hs Hd.
  assert (Htemp : temp_ranking ranking (rank d)
                  = temp_ranking (firstn c ranking) (rank d)).
  { unfold temp_ranking. rewrite <- (firstn_skipn c ranking) at 1.
    rewrite filter_app.
    rewrite (filter_nil_forall_inv _ (skipn c ranking)).
    - now rewrite app_nil_r.
    - intros b Hb. rewrite <- (firstn_skipn c ranking) in Hs.
      pose proof (sorted_app_lt _ _ Hs d b Hd Hb).
      apply andb_false_iff. right. apply Z.ltb_ge. lia. }
  unfold intermediate_metric, S_Plus_in. now rewrite Htemp.
Qed.

Lemma mapM_app_inv {A B} (f : A -> Result B) (l1 l2 : list A)
      (bs : list B) :
  mapM f (l1 ++ l2) = inr bs ->
  exists b1 b2, mapM f l1 = inr b1 /\ mapM f l2 = inr b2 /\ bs = b1 ++ b2.
Proof.
  revert bs. induction l1 as [|a l1 IH]; intros bs; simpl.
  - intros H. exists [], bs. auto.
  - destruct (f a) as [e|b]; simpl; [discriminate|].
    destruct (mapM f (l1 ++ l2)) as [e|bs'] eqn:Hm; simpl; [discriminate|].
    intros H. injection H as <-.
    destruct (IH bs' eq_refl) as (b1 & b2 & -> & H2 & ->).
    exists (b :: b1), b2. simpl. auto.
Qed.

Lemma mapM_ext_in {A B} (f g : A -> Result B) (l : list A) :
  (forall a, In a l -> f a = g a) -> mapM f l = mapM g l.
Proof.
  induction l as [|a l IH]; intros H; simpl; [reflexivity|].
  rewrite (H a (or_introl eq_refl)), IH; [reflexivity|].
  intros a' Ha'. apply H. now right.
Qed.

Lemma mapM_In {A B} (f : A -> Result B) (l : list A) (bs : list B) :
  mapM f l = inr bs -> forall a, In a l -> exists b, f a = inr b.
Proof.
  revert bs. induction l as [|a l IH]; intros bs H a' Ha'; [destruct Ha'|].
  simpl in H. destruct (f a) as [e|b] eqn:Hfa; simpl in H; [discriminate|].
  destruct (mapM f l) as [e|bs'] eqn:Hm; simpl in H; [discriminate|].
  destruct Ha' as [<- | Ha']; [eauto|]. eapply IH; eauto.
Qed.

Lemma sum_from (l : list R) (acc : R) :
  fold_left Rplus l acc = (acc + sum l)%R.
Proof.
  unfold sum. revert acc. induction l as [|x l IH]; intros acc; simpl.
  - lra.
  - rewrite (IH (acc + x)%R), (IH (0 + x)%R). lra.
Qed.

Lemma sum_app (l1 l2 : list R) : sum (l1 ++ l2) = (sum l1 + sum l2)%R.
Proof.
  unfold sum at 1. rewrite fold_left_app. fold (sum l1).
  now rewrite sum_from.
Qed.

Lemma sum_nonneg (l : list R) : Forall (fun m => (0 <= m)%R) l -> (0 <= sum l)%R.
Proof.
  intros H. unfold sum. apply sum_nonneg_from; [lra | assumption].
Qed.

(** The terms of the first [c] rows are the same with and without the
    rows behind them, and the terms of the rows behind them are not
    negative. *)
Lemma metrics_firstn (c : nat) (ranking : list ScoredDoc)
      (counts : dict) (g : Hashable) (N : Z) (ms_c ms : list R) :
  StronglySorted (fun a b => rank a < rank b) ranking ->
  mapM (intermediate_metric (firstn c ranking) counts g N)
       (map rank (firstn c ranking)) = inr ms_c ->
  mapM (intermediate_metric ranking counts g N) (map rank ranking) = inr ms ->
  (sum ms_c <= sum ms)%R.
Proof.
  intros Hs Hc Hfull.
  rewrite <- (firstn_skipn c ranking) in Hfull at 2.
  rewrite map_app in Hfull.
  apply mapM_app_inv in Hfull as (b1 & b2 & H1 & H2 & ->).
  rewrite (mapM_ext_in _ (intermediate_metric ranking counts g N)) in Hc.
  - rewrite H1 in Hc. injection Hc as <-. rewrite sum_app.
    assert (0 <= sum b2)%R; [|lra].
    apply sum_nonneg. eapply mapM_Forall; [|exact H2].
    intros a b. apply intermediate_metric_nonneg.
  - intros i Hi. apply in_map_iff in Hi as (d & <- & Hd).
    now apply intermediate_metric_firstn.
Qed.

(** X25. For a ranking whose ranks grow strictly along its rows, the score
    of its first [c] rows is at most the score of the whole ranking,
    whenever [fairness] returns both: the rows behind the first [c] carry
    greater ranks, so the terms of the first [c] rows are the same in both
    sums, and the terms of the other rows are not negative. *)
Theorem fairness_of_first_rows_not_above :
  forall (c : nat) (ranking : list ScoredDoc) (counts : dict)
         (g : Hashable) (v_c v : R),
    StronglySorted (fun a b => rank a < rank b) ranking ->
    fairness (firstn c ranking) counts g = inr v_c ->
    fairness ranking counts g = inr v ->
    (v_c <= v)%R.
Proof.
  intros c ranking counts g v_c v.
  intros Hs Hc Hfull.
  destruct c as [|c].
  { simpl in Hc. injection Hc as <-. unfold sum. simpl.
    eapply fairness_nonneg. eassumption. }
  destruct ranking as [|d0 rest].
  { simpl in Hc. rewrite Hc in Hfull. injection Hfull as <-. lra. }
  assert (Hzero : existsb (fun d => rank d =? 0) (firstn (S c) (d0 :: rest))
                  = existsb (fun d => rank d =? 0) (d0 :: rest)).
  { destruct (existsb (fun d => rank d =? 0) (d0 :: rest)) eqn:Hex.
    - (* the row of rank 0 is the first one, else [fairness] raises *)
      destruct (Z.eqb_spec (rank d0) 0) as [E0|N0].
      + simpl. now rewrite (proj2 (Z.eqb_eq _ _) E0).
      + exfalso. simpl in Hex.
        rewrite (proj2 (Z.eqb_neq _ _) N0) in Hex. simpl in Hex.
        apply existsb_exists in Hex as (z & Hz & Ez). apply Z.eqb_eq in Ez.
        inversion Hs as [|? ? _ Hall]; subst.
        rewrite Forall_forall in Hall. specialize (Hall z Hz).
        unfold fairness in Hfull.
        assert (Hex' : existsb (fun d => rank d =? 0) (d0 :: rest) = true).
        { apply existsb_exists. exists z. split; [now right|].
          now apply Z.eqb_eq. }
        rewrite Hex' in Hfull.
        match type of Hfull with
        | bind (mapM ?f ?l) _ = _ =>
            destruct (mapM f l) as [e|ms] eqn:Hm
        end; simpl in Hfull; [discriminate|].
        destruct (mapM_In _ _ _ Hm (rank d0 + 1)) as [m Him].
        { simpl. now left. }
        unfold intermediate_metric in Him.
        destruct (Z.leb_spec (rank d0 + 1 + 1) 0); [discriminate|].
        destruct (Z.eqb_spec (rank d0 + 1 + 1) 1); [discriminate|]. lia.
    - destruct (existsb (fun d => rank d =? 0) (firstn (S c) (d0 :: rest)))
        eqn:Hex'; [|reflexivity].
      apply existsb_exists in Hex' as (z & Hz & Ez).
      assert (existsb (fun d => rank d =? 0) (d0 :: rest) = true).
      { apply existsb_exists. exists z. split; [|assumption].
        eapply firstn_incl_In. eassumption. }
      congruence. }
  unfold fairness in Hc, Hfull. rewrite Hzero in Hc.
  destruct (existsb (fun d => rank d =? 0) (d0 :: rest)).
  - rewrite <- firstn_map in Hc.
    match type of Hc with
    | bind (mapM ?f ?l) _ = _ => destruct (mapM f l) as [e|ms_c] eqn:Hmc
    end; simpl in Hc; [discriminate|].
    match type of Hfull with
    | bind (mapM ?f ?l) _ = _ => destruct (mapM f l) as [e|ms] eqn:Hm
    end; simpl in Hfull; [discriminate|].
    injection Hc as <-. injection Hfull as <-.
    eapply metrics_firstn; [|exact Hmc|exact Hm].
    clear -Hs. induction Hs as [|x l Hs IH Hall]; simpl; constructor.
    + assumption.
    + rewrite Forall_forall in Hall |- *. intros y Hy.
      apply in_map_iff in Hy as (y0 & <- & Hy0). simpl.
      specialize (Hall y0 Hy0). lia.
  - match type of Hc with
    | bind (mapM ?f ?l) _ = _ => destruct (mapM f l) as [e|ms_c] eqn:Hmc
    end; simpl in Hc; [discriminate|].
    match type of Hfull with
    | bind (mapM ?f ?l) _ = _ => destruct (mapM f l) as [e|ms] eqn:Hm
    end; simpl in Hfull; [discriminate|].
    injection Hc as <-. injection Hfull as <-.
    eapply metrics_firstn; [exact Hs|exact Hmc|exact Hm].
Qed.

Lemma fairness_of_first_rows_not_above_witness :
  exists v_c v : R,
    fairness (firstn 1 Examples.rnd_ranking) Examples.rnd_counts "B"%string
    = inr v_c
    /\ fairness Examples.rnd_ranking Examples.rnd_counts "B"%string = inr v
    /\ (v_c <= v)%R.
Proof.
  assert (Hc : exists v,
    fairness (firstn 1 Examples.rnd_ranking) Examples.rnd_counts "B"%string
    = inr v).
  { eexists. unfold fairness. simpl.
    unfold intermediate_metric, S_Plus_in. simpl. reflexivity. }
  assert (Hfull : exists v,
    fairness Examples.rnd_ranking Examples.rnd_counts "B"%string = inr v).
  { eexists. unfold fairness. simpl.
    unfold intermediate_metric, S_Plus_in. simpl. reflexivity. }
  destruct Hc as [v_c Hc]. destruct Hfull as [v Hfull].
  exists v_c, v. split; [exact Hc|]. split; [exact Hfull|].
  apply (fairness_of_first_rows_not_above
           1%nat Examples.rnd_ranking Examples.rnd_counts "B"%string v_c v).
  - repeat constructor; simpl; lia.
  - exact Hc.
  - exact Hfull.
Defined.

End FirstRowsFacts.

(** ** Ties broken at random *)

Section RandomTieFacts.
Import Fairness.
Local Open Scope Z_scope.

(** X26. At a tie, RANDOM returns one of the groups with the tied count,
    whatever number is drawn, and every group with the tied count is
    returned for some draw: the draw is among the tied groups and among
    them only. *)
Theorem tie_broken_at_random :
  forall (strategy : ProtectedGroupStrategy) (counts : dict)
         (g0 g1 : Hashable) (c : Z) (rest : list (Hashable * Z)),
    sort_groups strategy counts = (g0, c) :: (g1, c) :: rest ->
    (forall random : nat,
        exists g : Hashable,
          _protected_group (Strategy strategy) (Some (TieStrategy RANDOM))
                           random counts = inr g
          /\ In (g, c) counts)
    /\ (forall g : Hashable,
          In (g, c) counts ->
          exists random : nat,
            _protected_group (Strategy strategy) (Some (TieStrategy RANDOM))
                             random counts = inr g).
Proof.
  intros strategy counts g0 g1 c rest Hsorted.
  pose proof (sort_groups_perm strategy counts) as Hperm.
  unfold _protected_group. rewrite Hsorted, Z.eqb_refl. cbv zeta.
  set (tied := tie_groups_of ((g0, c) :: (g1, c) :: rest) c).
  assert (Hne : tied <> []).
  { intros E. pose proof (tie_groups_hd g0 g1 c rest) as Hin.
    fold tied in Hin. rewrite E in Hin. destruct Hin. }
  assert (Htied : forall g, In g tied <-> In (g, c) counts).
  { intros g. subst tied. rewrite tie_groups_of_In, <- Hsorted.
    split; apply Permutation_in; [|symmetry]; assumption. }
  split.
  - intros random. eexists. split; [reflexivity|].
    apply Htied. now apply choice_In.
  - intros g Hg. apply Htied in Hg.
    destruct (In_nth tied g EmptyString Hg) as (n & Hn & Hnth).
    exists n. unfold choice. rewrite Nat.mod_small by assumption.
    now rewrite Hnth.
Qed.

Lemma tie_broken_at_random_witness :
  (forall random : nat,
      exists g : Hashable,
        _protected_group (Strategy MINORITY) (Some (TieStrategy RANDOM))
                         random Examples.tied_counts = inr g
        /\ In (g, 1) Examples.tied_counts)
  /\ (forall g : Hashable,
        In (g, 1) Examples.tied_counts ->
        exists random : nat,
          _protected_group (Strategy MINORITY) (Some (TieStrategy RANDOM))
                           random Examples.tied_counts = inr g).
Proof.
  apply (tie_broken_at_random MINORITY Examples.tied_counts
           "B"%string "C"%string 1 [("A"%string, 2)]).
  reflexivity.
Defined.

End RandomTieFacts.
